(** * Lotería board generator: a shallow embedding of [loteria_generator.py]

    The development follows the Python module top to bottom: the catalogue
    [ITEMS] and the constants, [create_master_pool], the [Counter] that
    [generate_boards] works on, the greedy filling of one board, the loop
    over the boards of one attempt and the retry loop with its
    [try]/[except Exception] handler.  The process-wide random generator of
    Python's [random] module is made explicit: a [RandomSource] is a state
    type with a [shuffle] operation, and the state is threaded through every
    call. *)

From Stdlib Require Import ZArith Ascii String List Permutation Lia
  DecimalString DecimalZ.
From stdpp Require Import base decidable list gmap strings sets.

Local Open Scope string_scope.
Local Open Scope Z_scope.
Local Open Scope list_scope.

(** ** The catalogue and the constants *)

Definition Item : Type := string.

Definition ITEMS : list Item :=
  [ "01 PATACÓN DE GUINEO VERDE"; "02 ALEGRÍA DE COCO Y ANÍS"; "03 BOLLO DE MAÍZ";
    "04 CABALLITO DE PAPAYA"; "05 SANCOCHO DE PESCADO"; "06 MAZAMORRA DE GUINEO";
    "07 COCADA DE PANELA Y COCO"; "08 MOJARRA FRITA"; "09 TINAJERO";
    "10 PIEDRA DE FILTRAR"; "11 TINAJA DE BARRO"; "12 PONCHERA";
    "13 MECEDORA DE MIMBRE"; "14 FOGÓN DE LEÑA"; "15 TOTUMA Y CUCHARA DE PALO";
    "16 MANTEL DE HULE"; "17 ESTACIÓN DEL FERROCARRIL"; "18 TRANVÍA DE BARRANQUILLA";
    "19 EL VAPOR DAVID ARANGO"; "20 ROBLE MORADO EN FLOR"; "21 MANGLARES DE LA CIÉNAGA";
    "22 BOSQUE SECO TROPICAL"; "23 BOCAS DE CENIZA"; "24 CALLES DE BARRIO ABAJO";
    "25 LA MARIMONDA"; "26 LA PALENQUERA"; "27 VENDEDOR DE AGUACATES";
    "28 LA NOVIA DE BARRANQUILLA"; "29 ALEJANDRO OBREGÓN"; "30 ENRIQUE GRAU";
    "31 PESCADOR DE ATARRAYA"; "32 AZAFATE"; "33 AJIACO SANTAFEREÑO";
    "34 TRANVÍA DE BOGOTÁ"; "35 OLLETA Y MOLINILLO"; "36 TAMAL SANTAFEREÑO" ].

Definition NUM_BOARDS : nat := 15.
Definition BOARD_SIZE : nat := 16.
Definition FIRST_24_FREQUENCY : nat := 7.
Definition LAST_12_FREQUENCY : nat := 6.

(** ** [create_master_pool]

    [master_pool.extend([item] * n)] appends [n] copies of [item]; the two
    loops run over the slices [ITEMS[:24]] and [ITEMS[24:]]. *)

Definition extend_repeated (n : nat) (pool : list Item) (item : Item) : list Item :=
  pool ++ repeat item n.

Definition create_master_pool : list Item :=
  let master_pool := [] in
  let master_pool := fold_left (extend_repeated FIRST_24_FREQUENCY) (take 24 ITEMS) master_pool in
  let master_pool := fold_left (extend_repeated LAST_12_FREQUENCY) (drop 24 ITEMS) master_pool in
  master_pool.

(** [list.count]: the number of occurrences of an item in a list. *)
Definition count (x : Item) (l : list Item) : nat :=
  length (filter (λ y, y = x) l).

(** ** [collections.Counter]

    A [Counter] is a [dict], and a [dict] keeps its keys in insertion order;
    [elements()] lists the keys in that order.  The order is what
    [random.shuffle] receives, so the counter is an association list, a key
    occurring at most once. *)

Definition Counter : Type := list (Item * Z).

(** [c[x]]: a missing key counts 0 ([Counter.__missing__]). *)
Fixpoint counter_get (c : Counter) (x : Item) : Z :=
  match c with
  | [] => 0
  | (k, v) :: c' => if decide (k = x) then v else counter_get c' x
  end.

(** [c[x] = v]: an existing key keeps its place, a new one goes last. *)
Fixpoint counter_set (c : Counter) (x : Item) (v : Z) : Counter :=
  match c with
  | [] => [(x, v)]
  | (k, w) :: c' =>
      if decide (k = x) then (k, v) :: c' else (k, w) :: counter_set c' x v
  end.

(** [del c[x]]. *)
Fixpoint counter_del (c : Counter) (x : Item) : Counter :=
  match c with
  | [] => []
  | (k, w) :: c' =>
      if decide (k = x) then c' else (k, w) :: counter_del c' x
  end.

(** [Counter(iterable)]: one [c[x] += 1] per element, left to right. *)
Definition counter_of (l : list Item) : Counter :=
  fold_left (λ c x, counter_set c x (counter_get c x + 1)) l [].

(** [c.elements()]: every key repeated as many times as its count; a count
    below one gives no element. *)
Definition counter_elements (c : Counter) : list Item :=
  flat_map (λ kv, repeat (fst kv) (Z.to_nat (snd kv))) c.

(** ** Python exceptions

    [generate_boards] raises [RuntimeError] with a message built from
    [max_attempts]; [run_tests] and the [assert] of [main] raise
    [AssertionError]; writing a file raises [OSError].  The handler of
    [generate_boards] is [except Exception]: what it catches is decided by
    the class of the exception, and [KeyboardInterrupt] and [SystemExit]
    derive from [BaseException] alone. *)

Inductive PyException : Type :=
  | RuntimeError (msg : string)
  | AssertionError (msg : string)
  | MemoryError
  | ValueError (msg : string)
  | OSError (msg : string)
  | KeyboardInterrupt
  | SystemExit.

(** [isinstance(e, Exception)]. *)
Definition is_Exception (e : PyException) : bool :=
  match e with
  | KeyboardInterrupt | SystemExit => false
  | _ => true
  end.

(** [str(n)] for a Python [int]. *)
Definition str (n : Z) : string := NilZero.string_of_int (Z.to_int n).

(** The f-string of line 102. *)
Definition failure_message (max_attempts : Z) : string :=
  "Failed to generate valid boards after " +:+ str max_attempts +:+ " attempts".

(** Reading a message back: the text after the opening words, up to the
    next blank, as a decimal number ([int(...)]). *)
Fixpoint strip_prefix (prefix s : string) : option string :=
  match prefix with
  | EmptyString => Some s
  | String a prefix' =>
      match s with
      | String b s' => if Ascii.eqb a b then strip_prefix prefix' s' else None
      | EmptyString => None
      end
  end.

Fixpoint until_blank (s : string) : string :=
  match s with
  | EmptyString => EmptyString
  | String a s' => if Ascii.eqb a " " then EmptyString else String a (until_blank s')
  end.

Definition carried_count (msg : string) : option Z :=
  match strip_prefix "Failed to generate valid boards after " msg with
  | Some rest => option_map Z.of_int (NilZero.int_of_string (until_blank rest))
  | None => None
  end.

(** ** The random source

    [random.shuffle(x)] permutes the list [x] in place using the state of
    the process-wide generator and advances that state.  The embedding
    passes the generator state [G] explicitly.  The call is the one place
    of the [try] block that leaves the built-in containers, so it is also
    where an exception can surface: a call either hands back the shuffled
    list or raises. *)

Class RandomSource (G : Type) : Type :=
  shuffle : G → list Item → (PyException + list Item) * G.

(** What [random.shuffle] promises: the list it leaves behind is a
    rearrangement of the one it was given. *)
Class ShufflePermutes (G : Type) {RS : RandomSource G} : Prop :=
  shuffle_permutes :
    ∀ (g g' : G) (l l' : list Item), shuffle g l = (inr l', g') → l' ≡ₚ l.

(** ** Filling one board (lines 70-85) *)

Definition Board : Type := list Item.

Record fill_state : Type := FillState {
  board : Board;
  board_items : gset Item;
  available : Counter
}.

(** The state on entry to the scan: [board = []], [board_items = set()]. *)
Definition fill_start (avail : Counter) : fill_state :=
  {| board := []; board_items := ∅; available := avail |}.

(** [available[item] -= 1] followed by the deletion of a key that reached 0. *)
Definition take_one (avail : Counter) (item : Item) : Counter :=
  let avail := counter_set avail item (counter_get avail item - 1) in
  if decide (counter_get avail item = 0) then counter_del avail item
  else avail.

(** One iteration of [for item in available_items]. *)
Definition fill_step (s : fill_state) (item : Item) : fill_state :=
  if decide ((item ∉ board_items s) ∧ (length (board s) < BOARD_SIZE)%nat) then
    {| board := board s ++ [item];
       board_items := board_items s ∪ {[item]};
       available := take_one (available s) item |}
  else s.

Definition fill_board (available_items : list Item) (avail : Counter) : fill_state :=
  fold_left fill_step available_items (fill_start avail).

(** ** One attempt and the retry loop (lines 62-102) *)

(** What the [try] block leaves behind: [Returned boards] when it reaches
    [return boards], [FellThrough] when it ends without returning,
    [Raised e] when [e] was raised in it. *)
Inductive attempt_outcome : Type :=
  | Returned (boards : list Board)
  | FellThrough
  | Raised (e : PyException).

Section Generate.

Context {G : Type} {RS : RandomSource G}.

(** [for board_num in range(NUM_BOARDS)], [k] boards still to build.  The
    result holds the values of [boards] and [available] when the loop is
    left, by [break] or at its end, or the exception that escaped it. *)
Fixpoint build_boards (k : nat) (avail : Counter) (boards : list Board)
    (g : G) : (PyException + list Board * Counter) * G :=
  match k with
  | O => (inr (boards, avail), g)
  | S k' =>
      let available_items := counter_elements avail in
      match shuffle g available_items with
      | (inl e, g') => (inl e, g')
      | (inr available_items, g') =>
          let s := fill_board available_items avail in
          if decide (length (board s) ≠ BOARD_SIZE) then
            (inr (boards, available s), g')
          else build_boards k' (available s) (boards ++ [board s]) g'
      end
  end.

(** The body of the [try] block (lines 68-96). *)
Definition try_block (avail : Counter) (g : G) : attempt_outcome * G :=
  match build_boards NUM_BOARDS avail [] g with
  | (inl e, g') => (Raised e, g')
  | (inr (boards, _), g') =>
      if decide (length boards = NUM_BOARDS) then (Returned boards, g')
      else (FellThrough, g')
  end.

(** [for attempt in range(max_attempts)], [n] iterations still to run,
    with the handler [except Exception: continue] of line 98 and the
    [raise] after the loop. *)
Fixpoint attempts (master_pool : list Item) (max_attempts : Z) (n : nat)
    (g : G) : (PyException + list Board) * G :=
  match n with
  | O => (inl (RuntimeError (failure_message max_attempts)), g)
  | S n' =>
      let avail := counter_of master_pool in
      match try_block avail g with
      | (Returned boards, g') => (inr boards, g')
      | (FellThrough, g') => attempts master_pool max_attempts n' g'
      | (Raised e, g') =>
          if is_Exception e then attempts master_pool max_attempts n' g'
          else (inl e, g')
      end
  end.

(** [inr boards] is [return boards], [inl e] is an exception that leaves
    the function. *)
Definition generate_boards (master_pool : list Item) (max_attempts : Z)
    (g : G) : (PyException + list Board) * G :=
  attempts master_pool max_attempts (Z.to_nat max_attempts) g.

(** The outcomes of [n] consecutive attempts, each run to its end from
    the generator state the previous one left. *)
Fixpoint attempt_outcomes (master_pool : list Item) (n : nat) (g : G)
    : list attempt_outcome :=
  match n with
  | O => []
  | S n' =>
      let '(r, g') := try_block (counter_of master_pool) g in
      r :: attempt_outcomes master_pool n' g'
  end.

(** The same attempts with the generator state each one leaves. *)
Fixpoint attempt_trace (master_pool : list Item) (n : nat) (g : G)
    : list (attempt_outcome * G) :=
  match n with
  | O => []
  | S n' =>
      let '(r, g') := try_block (counter_of master_pool) g in
      (r, g') :: attempt_trace master_pool n' g'
  end.

End Generate.

(** An attempt produced a board set. *)
Definition produced (r : attempt_outcome) : Prop :=
  match r with Returned _ => True | _ => False end.

(** An attempt after which the loop goes on to the next one: it fell
    through, or raised an instance of [Exception]. *)
Definition retried (r : attempt_outcome) : Prop :=
  match r with
  | Returned _ => False
  | FellThrough => True
  | Raised e => is_Exception e = true
  end.

(** ** [print_boards] (lines 105-123)

    The output is the list of the texts printed, one per call of [print];
    [print()] prints the empty text. *)

(** [l[start:stop]] for [0 <= start <= stop]: a slice ends where the list
    ends. *)
Definition slice {A : Type} (l : list A) (start stop : nat) : list A :=
  take (stop - start) (drop start l).

Definition newline : string := String "010"%char EmptyString.

(** ['=' * 60] *)
Definition rule : string := string_of_list_ascii (repeat "="%char 60).

(** One iteration of [for row in range(4)]. *)
Definition print_row (board : Board) (row : nat) : list string :=
  let start_idx := (row * 4)%nat in
  let end_idx := (start_idx + 4)%nat in
  let row_items := slice board start_idx end_idx in
  ((λ item, "  " +:+ item) <$> row_items)
  ++ (if decide (row < 3)%nat then [""] else []).

(** One iteration of [for i, board in enumerate(boards, 1)]. *)
Definition print_board (i : nat) (board : Board) : list string :=
  [newline +:+ rule; "BOARD " +:+ str (Z.of_nat i); rule]
  ++ flat_map (print_row board) (seq 0 4).

Definition print_boards (boards : list Board) : list string :=
  concat (imap (λ k board, print_board (S k) board) boards).

(** ** [export_to_json] (lines 126-154)

    [Json.output] is the dictionary [output] that the function hands to
    [json.dump], and [export_to_json] builds it (lines 130-149).  Opening
    the file and dumping the document into it (lines 151-152) is
    [write_export] below; the message printed at the end is output only. *)

Module Json.

Record board_data : Type := BoardData {
  board_number : nat;
  items : Board;
  grid : list (list Item)
}.

Record output : Type := Output {
  game : string;
  total_boards : nat;
  board_size : string;
  items_per_board : nat;
  boards : list board_data
}.

End Json.

Definition export_to_json (boards : list Board) : Json.output :=
  {| Json.game := "Lotería Barranquilla";
     Json.total_boards := length boards;
     Json.board_size := "4x4";
     Json.items_per_board := BOARD_SIZE;
     Json.boards :=
       imap (λ k board,
               {| Json.board_number := S k;
                  Json.items := board;
                  Json.grid := [slice board 0 4; slice board 4 8;
                                slice board 8 12; slice board 12 16] |})
            boards |}.

(** [open(filename, 'w')] and [json.dump(output, f)] act on the file
    system, which is part of the same outside world as the generator: the
    world either takes the document or raises. *)
Class FileSystem (G : Type) : Type :=
  write_json : G → string → Json.output → (PyException + unit) * G.

(** Lines 151-152, on the document of [export_to_json]. *)
Definition write_export {G : Type} {FS : FileSystem G} (boards : list Board)
    (filename : string) (g : G) : (PyException + unit) * G :=
  let output := export_to_json boards in
  write_json g filename output.

(** ** [run_tests] (lines 157-236), without the printing

    [set(board)] and [frozenset(board)] are finite sets of items; the size
    of the set of frozensets is the number of distinct ones among them. *)

Definition run_tests (boards : list Board) : PyException + unit :=
  let all_items := concat boards in
  let item_counts := counter_of all_items in
  let errors :=
    filter (λ item, counter_get item_counts item ≠ Z.of_nat FIRST_24_FREQUENCY)
           (take 24 ITEMS)
    ++ filter (λ item, counter_get item_counts item ≠ Z.of_nat LAST_12_FREQUENCY)
              (drop 24 ITEMS) in
  if decide (errors ≠ []) then
    inl (AssertionError "TEST 1 FAILED: Frequency requirements not met")
  else
    let duplicate_errors :=
      filter (λ board : Board,
                length board ≠ size (list_to_set board : gset Item)) boards in
    if decide (duplicate_errors ≠ []) then
      inl (AssertionError "TEST 2 FAILED: Some boards contain duplicates")
    else
      let board_sets := (λ board : Board, list_to_set board : gset Item) <$> boards in
      if decide (length board_sets ≠ length (remove_dups board_sets)) then
        inl (AssertionError "TEST 3 FAILED: Some boards are identical")
      else inr ().

(** ** [main] (lines 239-269), without its own printing

    [main_with] is [main] from line 255 on, for the value that line 252
    bound to [master_pool].  [print_boards(boards)] leaves the texts in
    [printed]; [export_to_json(boards)] writes its document to the default
    file name and can raise; [run_tests(boards)] comes last. *)

Definition main_with {G : Type} {RS : RandomSource G} {FS : FileSystem G}
    (master_pool : list Item) (g : G) : (PyException + unit) * G :=
  if decide (length master_pool ≠ 240%nat) then
    (inl (AssertionError ("Master pool should have 240 items, got "
                            +:+ str (Z.of_nat (length master_pool)))), g)
  else
    match generate_boards master_pool 1000 g with
    | (inl e, g') => (inl e, g')
    | (inr boards, g') =>
        let printed := print_boards boards in
        match write_export boards "loteria_boards.json" g' with
        | (inl e, g'') => (inl e, g'')
        | (inr _, g'') => (run_tests boards, g'')
        end
    end.

Definition main {G : Type} {RS : RandomSource G} {FS : FileSystem G} (g : G)
    : (PyException + unit) * G :=
  let master_pool := create_master_pool in
  main_with master_pool g.

(** ** Concrete worlds *)

(** A source that leaves every list as it is and counts its calls; every
    file can be written. *)
#[export] Instance counting_source : RandomSource nat :=
  λ g l, (inr l, S g).

#[export] Instance counting_files : FileSystem nat :=
  λ g filename output, (inr (), g).

(** Any source, with the number of calls made to it kept next to its state. *)
#[export] Instance counted {G : Type} {RS : RandomSource G} : RandomSource (G * nat) :=
  λ gn l, let '(r, g') := shuffle gn.1 l in (r, (g', S gn.2)).

#[export] Instance counted_files {G : Type} {FS : FileSystem G} : FileSystem (G * nat) :=
  λ gn filename output,
    let '(r, g') := write_json gn.1 filename output in (r, (g', gn.2)).

(** The number of [random.shuffle] calls of a run of [generate_boards]. *)
Definition shuffle_calls {G : Type} {RS : RandomSource G}
    (master_pool : list Item) (max_attempts : Z) (g : G) : nat :=
  (generate_boards master_pool max_attempts (g, O)).2.2.

(** A source driven by a script, one entry per call: [Prefer p] moves the
    tokens of the items of [p] to the front, keeping the order otherwise;
    [Throw e] raises [e].  An exhausted script leaves the list as it is. *)
Inductive script_step : Type :=
  | Prefer (p : list Item)
  | Throw (e : PyException).

#[export] Instance scripted_source : RandomSource (list script_step) :=
  λ g l,
    match g with
    | [] => (inr l, [])
    | Prefer p :: g' => (inr (filter (λ x, x ∈ p) l ++ filter (λ x, x ∉ p) l), g')
    | Throw e :: g' => (inl e, g')
    end.

#[export] Instance scripted_files : FileSystem (list script_step) :=
  λ g filename output, (inr (), g).

(** Any source, in a world whose file system takes no write. *)
Record read_only (G : Type) : Type := ReadOnly { generator : G }.
Arguments ReadOnly {G} _.
Arguments generator {G} _.

#[export] Instance read_only_source {G : Type} {RS : RandomSource G}
    : RandomSource (read_only G) :=
  λ w l, let '(r, g') := shuffle (generator w) l in (r, ReadOnly g').

#[export] Instance read_only_files {G : Type} : FileSystem (read_only G) :=
  λ w filename output,
    (inl (OSError ("[Errno 30] Read-only file system: " +:+ filename)), w).

(** Sixteen consecutive catalogue items, cyclically, from index [start]. *)
Definition window (start : nat) : list Item :=
  take BOARD_SIZE (drop start (ITEMS ++ ITEMS)).

(** Board [b] prefers the window starting at [16 * b mod 36]: dealing the
    240 tokens round-robin, sixteen at a time. *)
Definition round_robin_script : list script_step :=
  (λ b, Prefer (window ((16 * b) mod 36))) <$> seq 0 NUM_BOARDS.

(** Fifteen windows with fifteen different starts that cover every item as
    often as the reference pool holds it. *)
Definition staggered_script : list script_step :=
  (λ start, Prefer (window start))
    <$> [0; 16; 32; 12; 28; 8; 1; 17; 33; 13; 29; 9; 25; 5; 21]%nat.

(** ** The vocabulary of the properties *)

(** The items of a list in the order in which they first occur. *)
Definition first_occurrences (l : list Item) : list Item :=
  reverse (remove_dups (reverse l)).

(** A text printed by [print_boards] for an item: it begins with two
    blanks. *)
Definition item_line (line : string) : Prop := String.prefix "  " line = true.

(** The three facts [run_tests] looks for: the target counts, no item
    twice on a board, no two boards with the same set of items. *)
Definition frequencies_met (boards : list Board) : Prop :=
  Forall (λ item, count item (concat boards) = FIRST_24_FREQUENCY) (take 24 ITEMS)
  ∧ Forall (λ item, count item (concat boards) = LAST_12_FREQUENCY) (drop 24 ITEMS).

Definition no_duplicates (boards : list Board) : Prop :=
  Forall (λ board : Board, NoDup board) boards.

Definition all_distinct (boards : list Board) : Prop :=
  NoDup ((λ board : Board, list_to_set board : gset Item) <$> boards).

(** Every count is at least one: no key is kept at zero. *)
Definition counter_pos (c : Counter) : Prop := Forall (λ kv, 0 < kv.2) c.

(** [board_items] is the set of the items of [board], which holds no item
    twice and never more than sixteen. *)
Record board_ok (s : fill_state) : Prop := BoardOk {
  ok_items : ∀ x, x ∈ board_items s ↔ x ∈ board s;
  ok_NoDup : NoDup (board s);
  ok_length : (length (board s) ≤ BOARD_SIZE)%nat
}.

(** The tokens of the counter the scan started from are either still
    available or on the board. *)
Record tokens_ok (avail0 : Counter) (s : fill_state) : Prop := TokensOk {
  ok_pos : counter_pos (available s);
  ok_tokens : counter_elements (available s) ++ board s ≡ₚ counter_elements avail0
}.

(** Every board is full and holds no item twice. *)
Definition boards_ok (boards : list Board) : Prop :=
  Forall (λ b : Board, length b = BOARD_SIZE ∧ NoDup b) boards.

(** Started in related states, the two sources shuffle every list into
    the same order, or raise the same exception, and stay related. *)
Definition shuffle_alike {G1 G2 : Type} {RS1 : RandomSource G1}
    {RS2 : RandomSource G2} (R : G1 → G2 → Prop) : Prop :=
  ∀ g1 g2 l, R g1 g2 →
    (shuffle g1 l).1 = (shuffle g2 l).1 ∧ R (shuffle g1 l).2 (shuffle g2 l).2.


(** A board set that passes the validation of [run_tests]. *)
Definition valid_board_set (boards : list Board) : Prop := run_tests boards = inr ().

(** The retry budget as the specification has it: the error that carries
    the attempt count is raised exactly when none of the attempts produced
    a valid board set. *)
Definition raises_iff_none_valid {G : Type} {RS : RandomSource G}
    (master_pool : list Item) (max_attempts : Z) (g : G) : Prop :=
  (∃ g', generate_boards master_pool max_attempts g
         = (inl (RuntimeError (failure_message max_attempts)), g'))
  ↔ Forall (λ r, ∀ boards, r = Returned boards → ¬ valid_board_set boards)
           (attempt_outcomes master_pool (Z.to_nat max_attempts) g).

(** ** The scan as the specification words it

    The available multiset is a count per item.  A token is accepted when
    the board is not yet full and does not hold the token's item; an
    accepted token goes to the end of the board and its count drops by
    one. *)

Definition spec_accepts (board : Board) (token : Item) : Prop :=
  (length board < BOARD_SIZE)%nat ∧ token ∉ board.

Definition spec_decrement (token : Item) (avail : Item → Z) : Item → Z :=
  λ x, avail x - (if decide (token = x) then 1 else 0).

Fixpoint spec_scan (tokens : list Item) (board : Board) (avail : Item → Z)
    : Board * (Item → Z) :=
  match tokens with
  | [] => (board, avail)
  | token :: tokens =>
      if decide (spec_accepts board token) then
        spec_scan tokens (board ++ [token]) (spec_decrement token avail)
      else spec_scan tokens board avail
  end.

(** Split on every [decide] in sight and close what arithmetic or
    congruence closes. *)
Ltac split_decides :=
  repeat (simpl in *; case_decide); simpl in *; try done; try lia.

(** * The embedding on small inputs *)

Example counter_of_order :
  counter_of ["b"; "a"; "b"] = [("b", 2); ("a", 1)].
Proof. reflexivity. Qed.

Example counter_elements_order :
  counter_elements [("b", 2); ("a", 1); ("c", 0)] = ["b"; "b"; "a"].
Proof. reflexivity. Qed.

Example take_one_deletes : take_one [("b", 2); ("a", 1)] "a" = [("b", 2)].
Proof. reflexivity. Qed.

Example take_one_missing_key :
  take_one [("b", 2)] "a" = [("b", 2); ("a", -1)].
Proof. reflexivity. Qed.

Example fill_board_skips_repeats :
  board (fill_board ["a"; "a"; "b"; "a"] [("a", 3); ("b", 1)]) = ["a"; "b"]
  ∧ available (fill_board ["a"; "a"; "b"; "a"] [("a", 3); ("b", 1)]) = [("a", 2)].
Proof. by vm_compute. Qed.

Example failure_message_1000 :
  failure_message 1000 = "Failed to generate valid boards after 1000 attempts".
Proof. reflexivity. Qed.

Example generate_boards_negative_budget :
  generate_boards create_master_pool (-3) 0%nat
  = (inl (RuntimeError "Failed to generate valid boards after -3 attempts"), 0%nat).
Proof. reflexivity. Qed.

Example main_passes_its_tests : main staggered_script = (inr (), []).
Proof. by vm_compute. Qed.

(** * Facts about the counter *)

Section CounterFacts.

Implicit Types (c : Counter) (x y k : Item) (v w : Z).

Lemma counter_get_set c x y v :
  counter_get (counter_set c x v) y
  = if decide (x = y) then v else counter_get c y.
Proof.
  induction c as [|[k w] c IH]; simpl.
  - done.
  - destruct (decide (k = x)) as [->|Hkx]; simpl.
    + destruct (decide (x = y)); done.
    + rewrite IH. destruct (decide (k = y)) as [->|]; [|done].
      by rewrite decide_False.
Qed.

Lemma counter_get_missing c x : x ∉ c.*1 → counter_get c x = 0.
Proof.
  induction c as [|[k w] c IH]; simpl; [done|].
  rewrite not_elem_of_cons. intros [Hne Hc].
  rewrite decide_False by done. auto.
Qed.

Lemma counter_get_nonneg c x : counter_pos c → 0 ≤ counter_get c x.
Proof.
  induction 1 as [|[k w] c Hw _ IH]; simpl in *; [lia|].
  destruct (decide (k = x)); lia.
Qed.

Lemma counter_set_keys c x v y :
  y ∈ (counter_set c x v).*1 → y ∈ c.*1 ∨ y = x.
Proof.
  induction c as [|[k w] c IH]; simpl.
  - rewrite list_elem_of_singleton. auto.
  - destruct (decide (k = x)); simpl; rewrite !elem_of_cons; [tauto|].
    intros [?|?]; [tauto|]. destruct IH; tauto.
Qed.

Lemma counter_set_NoDup c x v : NoDup c.*1 → NoDup (counter_set c x v).*1.
Proof.
  induction c as [|[k w] c IH]; simpl.
  - intros _. apply NoDup_singleton.
  - rewrite NoDup_cons. intros [Hk Hc].
    destruct (decide (k = x)); simpl; rewrite NoDup_cons; [done|].
    split; [|auto]. intros [?|?]%counter_set_keys; done.
Qed.

Lemma counter_set_pos c x v : counter_pos c → 0 < v → counter_pos (counter_set c x v).
Proof.
  intros Hc Hv. induction Hc as [|[k w] c Hw Hc IH]; simpl.
  - by apply Forall_singleton.
  - destruct (decide (k = x)); by apply Forall_cons.
Qed.

Lemma counter_del_keys c x y : y ∈ (counter_del c x).*1 → y ∈ c.*1.
Proof.
  induction c as [|[k w] c IH]; simpl; [done|].
  destruct (decide (k = x)); simpl; rewrite !elem_of_cons; tauto.
Qed.

(** The three equations by which [take_one] walks down the counter. *)
Lemma take_one_nil x : take_one [] x = [(x, -1)].
Proof. unfold take_one. split_decides. Qed.

Lemma take_one_here k w c :
  take_one ((k, w) :: c) k = if decide (w - 1 = 0) then c else (k, w - 1) :: c.
Proof.
  unfold take_one. split_decides.
Qed.

Lemma take_one_later k w c x :
  k ≠ x → take_one ((k, w) :: c) x = (k, w) :: take_one c x.
Proof.
  intros Hne. unfold take_one. split_decides.
Qed.

Lemma take_one_keys c x y : y ∈ (take_one c x).*1 → y ∈ c.*1 ∨ y = x.
Proof.
  unfold take_one. destruct (decide _).
  - intros ?%counter_del_keys. by eapply counter_set_keys.
  - apply counter_set_keys.
Qed.

Lemma take_one_NoDup c x : NoDup c.*1 → NoDup (take_one c x).*1.
Proof.
  induction c as [|[k w] c IH]; simpl.
  - intros _. rewrite take_one_nil. apply NoDup_singleton.
  - rewrite NoDup_cons. intros [Hk Hc]. destruct (decide (k = x)) as [->|Hne].
    + rewrite take_one_here. destruct (decide _); [done|].
      simpl. by rewrite NoDup_cons.
    + rewrite take_one_later by done. simpl. rewrite NoDup_cons.
      split; [|auto]. intros [?|?]%take_one_keys; done.
Qed.

(** [available[item] -= 1] on the counts: one less for [item], nothing
    else moves, whether or not the key is deleted. *)
Lemma take_one_get c x y :
  NoDup c.*1 →
  counter_get (take_one c x) y
  = counter_get c y - (if decide (x = y) then 1 else 0).
Proof.
  induction c as [|[k w] c IH]; simpl.
  - intros _. rewrite take_one_nil. simpl. destruct (decide (x = y)); lia.
  - rewrite NoDup_cons. intros [Hk Hc]. destruct (decide (k = x)) as [->|Hne].
    + rewrite take_one_here. destruct (decide (x = y)) as [->|Hxy].
      * destruct (decide (w - 1 = 0)) as [Hw|Hw]; simpl.
        -- rewrite counter_get_missing by done. lia.
        -- by rewrite decide_True.
      * destruct (decide (w - 1 = 0)); simpl; [lia|].
        rewrite decide_False by done. lia.
    + rewrite take_one_later by done. simpl.
      destruct (decide (k = y)) as [->|]; [|auto].
      rewrite decide_False by done. lia.
Qed.

Lemma take_one_pos c x :
  counter_pos c → 0 < counter_get c x → counter_pos (take_one c x).
Proof.
  induction 1 as [|[k w] c Hw Hc IH]; simpl in *; [lia|].
  destruct (decide (k = x)) as [->|Hne]; intros Hx.
  - rewrite take_one_here. destruct (decide _); [done|].
    apply Forall_cons. simpl. split; [lia|done].
  - rewrite take_one_later by done. apply Forall_cons. split; [done|by apply IH].
Qed.

Lemma repeat_succ_pos k w :
  0 < w → repeat k (Z.to_nat w) = k :: repeat k (Z.to_nat (w - 1)).
Proof.
  intros Hw. replace (Z.to_nat w) with (S (Z.to_nat (w - 1))) by lia. done.
Qed.

(** Taking a token that is there removes exactly that token from
    [elements()]. *)
Lemma take_one_elements c x :
  0 < counter_get c x →
  x :: counter_elements (take_one c x) ≡ₚ counter_elements c.
Proof.
  induction c as [|[k w] c IH]; simpl; [lia|].
  destruct (decide (k = x)) as [->|Hne]; intros Hx.
  - rewrite take_one_here, (repeat_succ_pos x w) by done.
    destruct (decide (w - 1 = 0)) as [->|]; simpl; done.
  - rewrite take_one_later by done. simpl.
    rewrite Permutation_middle. f_equiv. auto.
Qed.

Lemma elements_get_pos c x :
  counter_pos c → x ∈ counter_elements c → 0 < counter_get c x.
Proof.
  induction 1 as [|[k w] c Hw Hc IH]; simpl in *; [by intros ?%elem_of_nil|].
  rewrite elem_of_app. destruct (decide (k = x)) as [->|Hne]; [done|].
  intros [Hin|Hin]; [|auto].
  apply list_elem_of_In, repeat_spec in Hin. congruence.
Qed.

(** [Counter(iterable)] keeps distinct keys, positive counts, and the
    tokens it was given. *)
Lemma counter_incr_elements c x :
  counter_pos c →
  counter_elements (counter_set c x (counter_get c x + 1))
  ≡ₚ x :: counter_elements c.
Proof.
  induction 1 as [|[k w] c Hw Hc IH]; simpl in *; [done|].
  destruct (decide (k = x)) as [->|Hne]; simpl.
  - rewrite (repeat_succ_pos x (w + 1)) by lia.
    by replace (w + 1 - 1) with w by lia.
  - rewrite IH. by rewrite Permutation_middle.
Qed.

Lemma counter_of_from c l :
  NoDup c.*1 → counter_pos c →
  let c' := fold_left (λ c x, counter_set c x (counter_get c x + 1)) l c in
  NoDup c'.*1 ∧ counter_pos c' ∧ counter_elements c' ≡ₚ counter_elements c ++ l.
Proof.
  revert c. induction l as [|x l IH]; intros c Hnd Hpos; simpl.
  - by rewrite app_nil_r.
  - pose proof (counter_get_nonneg c x Hpos).
    destruct (IH (counter_set c x (counter_get c x + 1))) as (?&?&Hperm).
    { by apply counter_set_NoDup. }
    { apply counter_set_pos; [done|lia]. }
    split_and!; [done..|].
    rewrite Hperm, counter_incr_elements by done.
    simpl. apply Permutation_middle.
Qed.

Lemma counter_of_NoDup l : NoDup (counter_of l).*1.
Proof. apply (counter_of_from [] l); [apply NoDup_nil_2|apply Forall_nil_2]. Qed.

Lemma counter_of_pos l : counter_pos (counter_of l).
Proof. apply (counter_of_from [] l); [apply NoDup_nil_2|apply Forall_nil_2]. Qed.

Lemma counter_of_elements l : counter_elements (counter_of l) ≡ₚ l.
Proof. apply (counter_of_from [] l); [apply NoDup_nil_2|apply Forall_nil_2]. Qed.

End CounterFacts.

(** * Facts about the filling of one board *)

Section FillFacts.

Implicit Types (s : fill_state) (item x : Item) (items : list Item).

Lemma fill_start_ok avail : board_ok (fill_start avail).
Proof.
  split; simpl.
  - intros x. by rewrite elem_of_empty, elem_of_nil.
  - apply NoDup_nil_2.
  - unfold BOARD_SIZE. lia.
Qed.

Lemma fill_step_accept s item :
  (item ∉ board_items s) ∧ (length (board s) < BOARD_SIZE)%nat →
  fill_step s item
  = {| board := board s ++ [item];
       board_items := board_items s ∪ {[item]};
       available := take_one (available s) item |}.
Proof. intros Hacc. unfold fill_step. by rewrite decide_True. Qed.

Lemma fill_step_reject s item :
  ¬ ((item ∉ board_items s) ∧ (length (board s) < BOARD_SIZE)%nat) →
  fill_step s item = s.
Proof. intros Hrej. unfold fill_step. by rewrite decide_False. Qed.

Lemma fill_step_ok s item : board_ok s → board_ok (fill_step s item).
Proof.
  intros [Hitems Hnd Hlen]. unfold fill_step.
  destruct (decide _) as [[Hfresh Hroom]|]; [|done].
  split; simpl.
  - intros x. rewrite elem_of_union, elem_of_singleton, elem_of_app,
      list_elem_of_singleton, Hitems. done.
  - apply NoDup_app. split_and!; [done| |apply NoDup_singleton].
    intros x Hx ->%list_elem_of_singleton. by apply Hfresh, Hitems.
  - rewrite length_app. simpl. lia.
Qed.

Lemma fold_fill_ok items s : board_ok s → board_ok (fold_left fill_step items s).
Proof.
  revert s. induction items as [|item items IH]; intros s Hs; simpl; [done|].
  by apply IH, fill_step_ok.
Qed.

Lemma fill_board_ok items avail : board_ok (fill_board items avail).
Proof. apply fold_fill_ok, fill_start_ok. Qed.

Lemma fill_step_NoDup_keys s item :
  NoDup (available s).*1 → NoDup (available (fill_step s item)).*1.
Proof.
  intros Hnd. unfold fill_step. destruct (decide _); [|done].
  simpl. by apply take_one_NoDup.
Qed.

Lemma fill_step_tokens avail0 s item :
  board_ok s → tokens_ok avail0 s → item ∈ counter_elements avail0 →
  tokens_ok avail0 (fill_step s item).
Proof.
  intros [Hitems _ _] [Hpos Htok] Hin. unfold fill_step.
  destruct (decide _) as [[Hfresh Hroom]|]; [|done].
  assert (0 < counter_get (available s) item) as Hget.
  { apply elements_get_pos; [done|].
    rewrite <- Htok, elem_of_app in Hin. destruct Hin as [|Hb]; [done|].
    by apply Hitems in Hb. }
  split; simpl.
  - by apply take_one_pos.
  - rewrite <- Htok, <- (take_one_elements (available s) item) by done.
    rewrite (assoc (++)), <- Permutation_cons_append. done.
Qed.

Lemma fold_fill_tokens avail0 items s :
  board_ok s → tokens_ok avail0 s →
  (∀ x, x ∈ items → x ∈ counter_elements avail0) →
  tokens_ok avail0 (fold_left fill_step items s).
Proof.
  revert s. induction items as [|item items IH]; intros s Hs Ht Hin; simpl; [done|].
  apply IH.
  - by apply fill_step_ok.
  - apply fill_step_tokens; [done..|]. apply Hin. by left.
  - intros x Hx. apply Hin. by right.
Qed.

(** One board: whatever was available before is available after or on the
    board, when the scanned tokens are a rearrangement of [elements()]. *)
Lemma fill_board_tokens items avail :
  counter_pos avail → items ≡ₚ counter_elements avail →
  tokens_ok avail (fill_board items avail).
Proof.
  intros Hpos Hperm. apply fold_fill_tokens.
  - apply fill_start_ok.
  - split; simpl; [done|]. by rewrite app_nil_r.
  - intros x. by rewrite Hperm.
Qed.

End FillFacts.

(** * Facts about one attempt *)

Lemma boards_ok_concat_length boards :
  boards_ok boards → length (concat boards) = (BOARD_SIZE * length boards)%nat.
Proof.
  unfold BOARD_SIZE. induction 1 as [|b boards [Hb _] _ IH]; [done|].
  cbn [concat length]. rewrite length_app, IH, Hb. unfold BOARD_SIZE. lia.
Qed.

Section BuildFacts.

Context {G : Type} {RS : RandomSource G}.

Implicit Types (avail : Counter) (boards : list Board) (g : G).

(** The three ways through one iteration of the loop over the boards. *)
Lemma build_boards_raise k avail boards g e g' :
  shuffle g (counter_elements avail) = (inl e, g') →
  build_boards (S k) avail boards g = (inl e, g').
Proof. intros Hsh. simpl. by rewrite Hsh. Qed.

Lemma build_boards_break k avail boards g items g' :
  shuffle g (counter_elements avail) = (inr items, g') →
  length (board (fill_board items avail)) ≠ BOARD_SIZE →
  build_boards (S k) avail boards g
  = (inr (boards, available (fill_board items avail)), g').
Proof. intros Hsh Hshort. simpl. rewrite Hsh. by rewrite decide_True. Qed.

Lemma build_boards_next k avail boards g items g' :
  shuffle g (counter_elements avail) = (inr items, g') →
  length (board (fill_board items avail)) = BOARD_SIZE →
  build_boards (S k) avail boards g
  = build_boards k (available (fill_board items avail))
      (boards ++ [board (fill_board items avail)]) g'.
Proof.
  intros Hsh Hfull. simpl. rewrite Hsh. rewrite decide_False; [done|].
  by intros [].
Qed.

Lemma build_boards_length k avail boards g boards' avail' g' :
  build_boards k avail boards g = (inr (boards', avail'), g') →
  (length boards' ≤ length boards + k)%nat.
Proof.
  revert avail boards g. induction k as [|k IH]; intros avail boards g; simpl.
  - intros [= <- _ _]. lia.
  - destruct (shuffle g _) as [[e|items] g1]; [done|].
    destruct (decide _) as [Hshort|Hfull].
    + intros [= <- _ _]. lia.
    + intros Hb%IH. rewrite length_app in Hb. simpl in Hb. lia.
Qed.

Lemma build_boards_ok k avail boards g boards' avail' g' :
  boards_ok boards →
  build_boards k avail boards g = (inr (boards', avail'), g') →
  boards_ok boards'.
Proof.
  revert avail boards g. induction k as [|k IH]; intros avail boards g Hok; simpl.
  - by intros [= <- _ _].
  - destruct (shuffle g _) as [[e|items] g1]; [done|].
    destruct (decide _) as [Hshort|Hfull].
    + by intros [= <- _ _].
    + apply IH. apply Forall_app. split; [done|]. apply Forall_singleton.
      split; [|apply fill_board_ok].
      destruct (decide (length (board (fill_board items avail)) = BOARD_SIZE));
        [done|]. by destruct Hfull.
Qed.

(** Conservation along the loop: as long as no board came out short, the
    tokens of the pool are the available ones and those on the boards. *)
Lemma build_boards_tokens `{!ShufflePermutes G} (pool : list Item)
    k avail boards g boards' avail' g' :
  counter_pos avail →
  counter_elements avail ++ concat boards ≡ₚ pool →
  build_boards k avail boards g = (inr (boards', avail'), g') →
  length boards' = (length boards + k)%nat →
  counter_pos avail' ∧ counter_elements avail' ++ concat boards' ≡ₚ pool.
Proof.
  revert avail boards g. induction k as [|k IH]; intros avail boards g Hpos Hpool; simpl.
  - by intros [= <- <- _] _.
  - destruct (shuffle g _) as [[e|items] g1] eqn:Hsh; [done|].
    apply shuffle_permutes in Hsh.
    destruct (fill_board_tokens items avail Hpos Hsh) as [Hpos' Htok].
    destruct (decide _) as [Hshort|Hfull].
    + intros [= <- _ _] Hlen. lia.
    + intros Hb Hlen. eapply IH; [done| |done|].
      * rewrite concat_app. simpl. rewrite app_nil_r, <- Hpool, <- Htok.
        rewrite <- !(assoc (++)). f_equiv. apply Permutation_app_comm.
      * rewrite Hlen, length_app. simpl. lia.
Qed.

Lemma try_block_returned avail g boards g' :
  try_block avail g = (Returned boards, g') →
  length boards = NUM_BOARDS ∧
  ∃ avail', build_boards NUM_BOARDS avail [] g = (inr (boards, avail'), g').
Proof.
  unfold try_block.
  destruct (build_boards _ _ _ _) as [[e|[boards0 avail0]] g0]; [done|].
  destruct (decide _); [|done]. intros [= <- <-]. eauto.
Qed.

Lemma try_block_boards_ok avail g boards g' :
  try_block avail g = (Returned boards, g') → boards_ok boards.
Proof.
  intros [_ [avail' Hb]]%try_block_returned.
  eapply build_boards_ok; [|done]. apply Forall_nil_2.
Qed.

(** A returned board set used up [16 * 15] tokens of the counter. *)
Lemma try_block_tokens `{!ShufflePermutes G} avail g boards g' :
  counter_pos avail →
  try_block avail g = (Returned boards, g') →
  ∃ avail', counter_elements avail' ++ concat boards ≡ₚ counter_elements avail.
Proof.
  intros Hpos [Hlen [avail' Hb]]%try_block_returned. exists avail'.
  eapply (build_boards_tokens (counter_elements avail)); [done| |done|].
  - simpl. by rewrite app_nil_r.
  - by rewrite Hlen.
Qed.

End BuildFacts.

(** * Facts about the retry loop *)

Section RetryFacts.

Context {G : Type} {RS : RandomSource G}.

Implicit Types (pool : list Item) (g : G).

Lemma attempts_retry pool max n g r g' :
  try_block (counter_of pool) g = (r, g') → retried r →
  attempts pool max (S n) g = attempts pool max n g'.
Proof.
  intros Htry Hr. simpl. rewrite Htry.
  destruct r as [boards| |e]; [done|done|]. simpl in Hr. by rewrite Hr.
Qed.

Lemma attempts_escape pool max n g e g' :
  try_block (counter_of pool) g = (Raised e, g') → is_Exception e = false →
  attempts pool max (S n) g = (inl e, g').
Proof. intros Htry He. simpl. by rewrite Htry, He. Qed.

Lemma attempts_returned pool max n g boards g' :
  attempts pool max n g = (inr boards, g') →
  ∃ g0, try_block (counter_of pool) g0 = (Returned boards, g').
Proof.
  revert g. induction n as [|n IH]; intros g; simpl; [done|].
  destruct (try_block _ g) as [[boards0| |e] g1] eqn:Htry.
  - intros [= <- <-]. eauto.
  - apply IH.
  - destruct (is_Exception e); [apply IH|done].
Qed.

(** An instance of [Exception] that leaves the loop is the [RuntimeError]
    of line 102. *)
Lemma attempts_raised pool max n g e g' :
  attempts pool max n g = (inl e, g') → is_Exception e = true →
  e = RuntimeError (failure_message max).
Proof.
  revert g. induction n as [|n IH]; intros g; simpl.
  - by intros [= <- _] _.
  - destruct (try_block _ g) as [[boards0| |e0] g1]; [done|apply IH|].
    destruct (is_Exception e0) eqn:He0; [apply IH|].
    intros [= <- _] He. congruence.
Qed.

(** The loop ends in the [raise] of line 102 exactly when every one of its
    [n] attempts was followed by the next. *)
Lemma attempts_raise_iff pool max n g :
  (∃ g', attempts pool max n g = (inl (RuntimeError (failure_message max)), g'))
  ↔ Forall retried (attempt_outcomes pool n g).
Proof.
  revert g. induction n as [|n IH]; intros g; simpl.
  - split; [intros _; apply Forall_nil_2|eauto].
  - destruct (try_block _ g) as [[boards0| |e0] g1]; rewrite Forall_cons; simpl.
    + split; [by intros [? [=]]|tauto].
    + rewrite IH. tauto.
    + destruct (is_Exception e0) eqn:He0.
      * rewrite IH. tauto.
      * split; [intros [? [= ->]]; done|intros [? _]; done].
Qed.

End RetryFacts.

(** * Two random sources that answer alike *)

Section Alike.

Context {G1 G2 : Type} {RS1 : RandomSource G1} {RS2 : RandomSource G2}.
Variable R : G1 → G2 → Prop.

Hypothesis Halike : shuffle_alike R.

Lemma build_boards_alike k avail boards g1 g2 :
  R g1 g2 →
  (build_boards k avail boards g1).1 = (build_boards k avail boards g2).1
  ∧ R (build_boards k avail boards g1).2 (build_boards k avail boards g2).2.
Proof.
  revert avail boards g1 g2. induction k as [|k IH]; intros avail boards g1 g2 HR; simpl.
  - done.
  - destruct (Halike g1 g2 (counter_elements avail) HR) as [Hfst Hsnd].
    destruct (shuffle g1 _) as [r1 h1], (shuffle g2 _) as [r2 h2].
    simpl in *. subst r2. destruct r1 as [e|items]; [done|].
    destruct (decide _); [done|]. by apply IH.
Qed.

Lemma try_block_alike avail g1 g2 :
  R g1 g2 →
  (try_block avail g1).1 = (try_block avail g2).1
  ∧ R (try_block avail g1).2 (try_block avail g2).2.
Proof.
  intros HR. unfold try_block.
  destruct (build_boards_alike NUM_BOARDS avail [] g1 g2 HR) as [Hfst Hsnd].
  destruct (build_boards _ _ _ g1) as [r1 h1], (build_boards _ _ _ g2) as [r2 h2].
  simpl in *. subst r2. destruct r1 as [e|[boards avail']]; [done|].
  by destruct (decide _).
Qed.

Lemma attempts_alike pool max n g1 g2 :
  R g1 g2 →
  (attempts pool max n g1).1 = (attempts pool max n g2).1
  ∧ R (attempts pool max n g1).2 (attempts pool max n g2).2.
Proof.
  revert g1 g2. induction n as [|n IH]; intros g1 g2 HR; simpl; [done|].
  destruct (try_block_alike (counter_of pool) g1 g2 HR) as [Hfst Hsnd].
  destruct (try_block _ g1) as [r1 h1], (try_block _ g2) as [r2 h2].
  simpl in *. subst r2. destruct r1 as [boards| |e]; [done|by apply IH|].
  destruct (is_Exception e); [by apply IH|done].
Qed.

End Alike.

(** * The concrete sources are rearranging ones *)

#[export] Instance counting_source_permutes : ShufflePermutes nat.
Proof. intros g g' l l' [= <- _]. done. Qed.

#[export] Instance scripted_source_permutes : ShufflePermutes (list script_step).
Proof.
  intros [|[p|e] g] g' l l'; unfold shuffle; simpl; intros [= <- _]; [done|].
  apply filter_app_complement.
Qed.

#[export] Instance read_only_permutes {G : Type} {RS : RandomSource G}
    `{!ShufflePermutes G} : ShufflePermutes (read_only G).
Proof.
  intros w w' l l'.
  change (shuffle w l)
    with (let '(r, g') := shuffle (generator w) l in (r, ReadOnly g')).
  destruct (shuffle (generator w) l) as [r g1] eqn:Hsh. intros [= -> _].
  by eapply shuffle_permutes.
Qed.

Section Counted.

Context {G : Type} {RS : RandomSource G}.

Implicit Types (gn : G * nat).

Lemma counted_shuffle gn l :
  shuffle gn l = ((shuffle gn.1 l).1, ((shuffle gn.1 l).2, S gn.2)).
Proof.
  change (shuffle gn l) with (let '(r, g') := shuffle gn.1 l in (r, (g', S gn.2))).
  by destruct (shuffle gn.1 l).
Qed.

#[export] Instance counted_permutes `{!ShufflePermutes G} : ShufflePermutes (G * nat).
Proof.
  intros gn gn' l l'. rewrite counted_shuffle. intros [= Hl _].
  destruct (shuffle gn.1 l) as [r g1] eqn:Hsh. simpl in Hl. subst r.
  by eapply shuffle_permutes.
Qed.

(** Counting the calls does not change the answers. *)
Lemma counted_alike : shuffle_alike (λ (g : G) gn, gn.1 = g).
Proof. intros g gn l <-. by rewrite counted_shuffle. Qed.

Lemma counted_shuffle_calls gn l : (shuffle gn l).2.2 = S gn.2.
Proof. by rewrite counted_shuffle. Qed.

Lemma counted_build_boards k avail boards gn :
  (gn.2 ≤ (build_boards k avail boards gn).2.2 ≤ gn.2 + k)%nat.
Proof.
  revert avail boards gn. induction k as [|k IH]; intros avail boards gn; simpl.
  - lia.
  - pose proof (counted_shuffle_calls gn (counter_elements avail)) as Hn.
    destruct (shuffle gn _) as [[e|items] gn1]; simpl in *; [lia|].
    destruct (decide _); simpl; [lia|].
    specialize (IH (available (fill_board items avail))
                  (boards ++ [board (fill_board items avail)]) gn1). lia.
Qed.

Lemma counted_build_boards_succ k avail boards gn :
  (S gn.2 ≤ (build_boards (S k) avail boards gn).2.2 ≤ gn.2 + S k)%nat.
Proof.
  cbn [build_boards].
  pose proof (counted_shuffle_calls gn (counter_elements avail)) as Hn.
  destruct (shuffle gn _) as [[e|items] gn1]; simpl in *; [lia|].
  destruct (decide _); simpl; [lia|].
  pose proof (counted_build_boards k (available (fill_board items avail))
                (boards ++ [board (fill_board items avail)]) gn1).
  lia.
Qed.

(** An attempt shuffles at least once and at most once per board. *)
Lemma counted_try_block avail gn :
  (S gn.2 ≤ (try_block avail gn).2.2 ≤ gn.2 + NUM_BOARDS)%nat.
Proof.
  unfold try_block.
  pose proof (counted_build_boards_succ 14 avail [] gn) as Hb.
  change (S 14) with NUM_BOARDS in Hb.
  destruct (build_boards _ _ _ _) as [[e|[boards avail']] gn1]; [done|].
  by destruct (decide _).
Qed.

Lemma counted_attempts_le pool max n gn :
  ((attempts pool max n gn).2.2 ≤ gn.2 + NUM_BOARDS * n)%nat.
Proof.
  revert gn. induction n as [|n IH]; intros gn; cbn [attempts].
  - simpl. lia.
  - pose proof (counted_try_block (counter_of pool) gn) as Ht.
    destruct (try_block _ gn) as [[boards| |e] gn1]; simpl in Ht.
    + simpl. unfold NUM_BOARDS in *. lia.
    + specialize (IH gn1). unfold NUM_BOARDS in *. lia.
    + destruct (is_Exception e).
      * specialize (IH gn1). unfold NUM_BOARDS in *. lia.
      * simpl. unfold NUM_BOARDS in *. lia.
Qed.

End Counted.

(** A pool with fewer than [15 * 16] tokens never fills fifteen boards. *)
Lemma small_pool_never_returns {G : Type} {RS : RandomSource G}
    `{!ShufflePermutes G} (pool : list Item) (g g' : G) (boards : list Board) :
  (length pool < NUM_BOARDS * BOARD_SIZE)%nat →
  try_block (counter_of pool) g ≠ (Returned boards, g').
Proof.
  intros Hsmall Htry.
  destruct (try_block_tokens _ _ _ _ (counter_of_pos pool) Htry) as [avail' Hperm].
  pose proof (try_block_boards_ok _ _ _ _ Htry) as Hok.
  apply try_block_returned in Htry as [Hlen _].
  rewrite counter_of_elements in Hperm. apply Permutation_length in Hperm.
  rewrite length_app, (boards_ok_concat_length _ Hok), Hlen in Hperm.
  unfold NUM_BOARDS, BOARD_SIZE in *. lia.
Qed.

Section ScanFacts.

Implicit Types (s : fill_state) (items : list Item) (b : Board).

Lemma spec_scan_ext items b (a1 a2 : Item → Z) :
  (∀ x, a1 x = a2 x) →
  (spec_scan items b a1).1 = (spec_scan items b a2).1
  ∧ ∀ x, (spec_scan items b a1).2 x = (spec_scan items b a2).2 x.
Proof.
  revert b a1 a2. induction items as [|item items IH]; intros b a1 a2 Hext; simpl.
  - done.
  - destruct (decide _); [|by apply IH].
    apply IH. intros x. unfold spec_decrement. by rewrite Hext.
Qed.

Lemma fold_fill_spec items s :
  board_ok s → NoDup (available s).*1 →
  board (fold_left fill_step items s)
  = (spec_scan items (board s) (counter_get (available s))).1
  ∧ (∀ x, counter_get (available (fold_left fill_step items s)) x
          = (spec_scan items (board s) (counter_get (available s))).2 x)
  ∧ NoDup (available (fold_left fill_step items s)).*1.
Proof.
  revert s. induction items as [|item items IH]; intros s Hok Hnd; simpl; [done|].
  destruct (IH (fill_step s item)) as (Hb & Ha & Hk).
  { by apply fill_step_ok. }
  { by apply fill_step_NoDup_keys. }
  rewrite Hb. split_and!; [| |done].
  - destruct (decide (spec_accepts (board s) item)) as [[Hroom Hfresh]|Hrej].
    + rewrite fill_step_accept by (by rewrite (ok_items s Hok)). simpl.
      apply spec_scan_ext. intros x. by apply take_one_get.
    + rewrite fill_step_reject; [done|].
      intros [Hfresh Hroom]. apply Hrej. split; [done|].
      by rewrite <- (ok_items s Hok).
  - intros x. rewrite Ha.
    destruct (decide (spec_accepts (board s) item)) as [[Hroom Hfresh]|Hrej].
    + rewrite fill_step_accept by (by rewrite (ok_items s Hok)). simpl.
      apply spec_scan_ext. intros y. by apply take_one_get.
    + rewrite fill_step_reject; [done|].
      intros [Hfresh Hroom]. apply Hrej. split; [done|].
      by rewrite <- (ok_items s Hok).
Qed.

End ScanFacts.

Section SplitFacts.

Context {G : Type} {RS : RandomSource G}.

(** The loop over the boards, cut after [i] full boards. *)
Lemma build_boards_split i k avail boards (g : G) boards_i avail_i g_i :
  build_boards i avail boards g = (inr (boards_i, avail_i), g_i) →
  length boards_i = (length boards + i)%nat →
  build_boards (i + k) avail boards g = build_boards k avail_i boards_i g_i.
Proof.
  revert avail boards g. induction i as [|i IH]; intros avail boards g; simpl.
  - by intros [= <- <- <-] _.
  - destruct (shuffle g _) as [[e|items] g1]; [done|].
    destruct (decide _).
    + intros [= <- _ _]. lia.
    + intros Hb Hlen. apply IH; [done|]. rewrite Hlen, length_app. simpl. lia.
Qed.

(** An attempt whose first [i] boards are full stands at its board
    number [i] with fifteen minus [i] boards to go. *)
Lemma try_block_at i pool (g : G) boards_i avail_i g_i :
  (i < NUM_BOARDS)%nat →
  build_boards i (counter_of pool) [] g = (inr (boards_i, avail_i), g_i) →
  length boards_i = i →
  build_boards NUM_BOARDS (counter_of pool) [] g
  = build_boards (S (NUM_BOARDS - S i)) avail_i boards_i g_i.
Proof.
  intros Hi Hb Hlen.
  replace NUM_BOARDS with (i + S (NUM_BOARDS - S i))%nat at 1 by lia.
  by apply build_boards_split.
Qed.

End SplitFacts.

(** * The properties of the specification *)

Lemma master_pool_length : length create_master_pool = 240%nat.
Proof. reflexivity. Qed.

Lemma master_pool_first :
  Forall (λ item, count item create_master_pool = FIRST_24_FREQUENCY) (take 24 ITEMS).
Proof. apply (bool_decide_unpack _). by vm_compute. Qed.

Lemma master_pool_last :
  Forall (λ item, count item create_master_pool = LAST_12_FREQUENCY) (drop 24 ITEMS).
Proof. apply (bool_decide_unpack _). by vm_compute. Qed.

(** C7: [create_master_pool] holds each of the first 24 catalogue items
    exactly 7 times and each of the last 12 exactly 6 times; the catalogue
    has 36 distinct items, so the pool has [24 * 7 + 12 * 6 = 240] tokens,
    the sum of the target counts. *)
Theorem create_master_pool_counts :
  Forall (λ item, count item create_master_pool = FIRST_24_FREQUENCY) (take 24 ITEMS)
  ∧ Forall (λ item, count item create_master_pool = LAST_12_FREQUENCY) (drop 24 ITEMS)
  ∧ length (take 24 ITEMS) = 24%nat
  ∧ length (drop 24 ITEMS) = 12%nat
  ∧ NoDup ITEMS
  ∧ length create_master_pool
    = (24 * FIRST_24_FREQUENCY + 12 * LAST_12_FREQUENCY)%nat
  ∧ length create_master_pool = 240%nat.
Proof.
  split_and!; try reflexivity.
  - apply master_pool_first.
  - apply master_pool_last.
  - apply (bool_decide_unpack _). by vm_compute.
Qed.

Lemma count_Permutation (x : Item) (l1 l2 : list Item) :
  l1 ≡ₚ l2 → count x l1 = count x l2.
Proof. intros Hperm. unfold count. by rewrite Hperm. Qed.

Lemma count_app (x : Item) (l1 l2 : list Item) :
  count x (l1 ++ l2) = (count x l1 + count x l2)%nat.
Proof. unfold count. by rewrite filter_app, length_app. Qed.
Lemma count_cons (x y : Item) (l : list Item) :
  count x (y :: l) = ((if decide (y = x) then 1 else 0) + count x l)%nat.
Proof. unfold count. rewrite filter_cons. by destruct (decide (y = x)). Qed.

(** C1: on the reference master pool, every board list that
    [generate_boards] returns has exactly 15 boards, and across them each
    of the first 24 catalogue items occurs 7 times and each of the last 12
    occurs 6 times. *)
Theorem generate_boards_conservation {G : Type} {RS : RandomSource G}
    `{!ShufflePermutes G} (max_attempts : Z) (g : G) (boards : list Board) (g' : G) :
  generate_boards create_master_pool max_attempts g = (inr boards, g') →
  length boards = 15%nat
  ∧ Forall (λ item, count item (concat boards) = 7%nat) (take 24 ITEMS)
  ∧ Forall (λ item, count item (concat boards) = 6%nat) (drop 24 ITEMS).
Proof.
  intros [g0 Htry]%attempts_returned.
  destruct (try_block_tokens _ _ _ _ (counter_of_pos _) Htry) as [avail' Hperm].
  pose proof (try_block_boards_ok _ _ _ _ Htry) as Hok.
  apply try_block_returned in Htry as [Hlen _].
  rewrite counter_of_elements in Hperm.
  assert (counter_elements avail' = []) as Hnil.
  { apply nil_length_inv. apply Permutation_length in Hperm.
    rewrite length_app, (boards_ok_concat_length _ Hok), Hlen in Hperm.
    rewrite master_pool_length in Hperm.
    unfold NUM_BOARDS, BOARD_SIZE in Hperm. lia. }
  rewrite Hnil in Hperm. simpl in Hperm.
  split_and!; [done| |].
  - eapply Forall_impl; [exact master_pool_first|]. intros item Hc.
    transitivity (count item create_master_pool); [by apply count_Permutation|exact Hc].
  - eapply Forall_impl; [exact master_pool_last|]. intros item Hc.
    transitivity (count item create_master_pool); [by apply count_Permutation|exact Hc].
Qed.

Lemma generate_boards_conservation_witness :
  ∃ boards g',
    generate_boards create_master_pool 1000 staggered_script = (inr boards, g')
    ∧ length boards = 15%nat
    ∧ Forall (λ item, count item (concat boards) = 7%nat) (take 24 ITEMS)
    ∧ Forall (λ item, count item (concat boards) = 6%nat) (drop 24 ITEMS).
Proof.
  assert (∃ boards g',
    generate_boards create_master_pool 1000 staggered_script = (inr boards, g'))
    as (boards & g' & Hrun) by (vm_compute; do 2 eexists; reflexivity).
  exists boards, g'. split; [exact Hrun|].
  exact (generate_boards_conservation 1000 staggered_script boards g' Hrun).
Defined.

(** C2: every board of a board list returned by [generate_boards] has
    exactly 16 items, no item twice: the set of its items has 16 elements. *)
Theorem generate_boards_no_repeat {G : Type} {RS : RandomSource G}
    (master_pool : list Item) (max_attempts : Z) (g : G)
    (boards : list Board) (g' : G) :
  generate_boards master_pool max_attempts g = (inr boards, g') →
  Forall (λ b : Board,
            length b = 16%nat ∧ NoDup b
            ∧ size (list_to_set b : gset Item) = 16%nat) boards.
Proof.
  intros [g0 Htry]%attempts_returned.
  apply try_block_boards_ok in Htry.
  eapply Forall_impl; [exact Htry|]. intros b [Hlen Hnd].
  split_and!; [done..|]. by rewrite size_list_to_set.
Qed.

Lemma generate_boards_no_repeat_witness :
  ∃ boards g',
    generate_boards create_master_pool 1 staggered_script = (inr boards, g')
    ∧ Forall (λ b : Board,
                length b = 16%nat ∧ NoDup b
                ∧ size (list_to_set b : gset Item) = 16%nat) boards.
Proof.
  assert (∃ boards g',
    generate_boards create_master_pool 1 staggered_script = (inr boards, g'))
    as (boards & g' & Hrun) by (vm_compute; do 2 eexists; reflexivity).
  exists boards, g'. split; [exact Hrun|].
  exact (generate_boards_no_repeat create_master_pool 1 staggered_script
           boards g' Hrun).
Defined.

(** C3: the claim asks that no two boards of a returned list hold the same
    set of items.  With the reference pool and the shuffles of
    [round_robin_script], [generate_boards] returns fifteen boards of which
    the first and the tenth hold the same items; [run_tests] rejects that
    list in its third test, and so [main] ends in that [AssertionError]. *)
Theorem generate_boards_identical_boards :
  ∃ boards g' b0 b9,
    generate_boards create_master_pool 1000 round_robin_script = (inr boards, g')
    ∧ boards !! 0%nat = Some b0
    ∧ boards !! 9%nat = Some b9
    ∧ (list_to_set b0 : gset Item) = list_to_set b9
    ∧ run_tests boards
      = inl (AssertionError "TEST 3 FAILED: Some boards are identical")
    ∧ (main round_robin_script).1
      = inl (AssertionError "TEST 3 FAILED: Some boards are identical").
Proof.
  eexists _, _, _, _.
  split; [vm_compute; reflexivity|].
  split; [reflexivity|]. split; [reflexivity|]. split; [reflexivity|].
  split; vm_compute; reflexivity.
Qed.

Lemma until_blank_uint (d : Decimal.uint) (s : string) :
  until_blank (NilEmpty.string_of_uint d +:+ String " " s)
  = NilEmpty.string_of_uint d.
Proof. induction d; simpl; [done|by f_equal..]. Qed.

Lemma until_blank_str (n : Z) (s : string) :
  until_blank (str n +:+ String " " s) = str n.
Proof.
  unfold str. destruct (Z.to_int n) as [d|d]; simpl.
  - destruct d; try apply (until_blank_uint _ s). done.
  - f_equal. destruct d; try apply (until_blank_uint _ s). done.
Qed.

Lemma strip_prefix_app (prefix s : string) :
  strip_prefix prefix (prefix +:+ s) = Some s.
Proof. induction prefix as [|a prefix IH]; simpl; [done|]. by rewrite Ascii.eqb_refl. Qed.

(** [int(str(n))] is [n]. *)
Lemma int_of_str (n : Z) :
  option_map Z.of_int (NilZero.int_of_string (str n)) = Some n.
Proof.
  unfold str. rewrite <- (DecimalZ.of_to n) at 2.
  generalize (Z.to_int n) as d. intros d.
  assert (d = Decimal.Pos Decimal.Nil ∨ d = Decimal.Neg Decimal.Nil
          ∨ (d ≠ Decimal.Pos Decimal.Nil ∧ d ≠ Decimal.Neg Decimal.Nil))
    as [->|[->|[Hp Hn]]] by (destruct d as [[]|[]]; auto).
  - reflexivity.
  - reflexivity.
  - by rewrite NilZero.isi.
Qed.

(** The message of line 102 carries [max_attempts]: the number read back
    from it is the one it was built from. *)
Lemma failure_message_carries (max_attempts : Z) :
  carried_count (failure_message max_attempts) = Some max_attempts.
Proof.
  unfold carried_count, failure_message. rewrite strip_prefix_app.
  change (" attempts") with (String " " "attempts").
  by rewrite until_blank_str, int_of_str.
Qed.

(** C4, as the claim has it, fails.  An interrupt that the handler does not
    catch ends the run without a board set and without the error that
    carries the count; and the list returned at the first attempt on the
    shuffles of [round_robin_script] is not a valid board set, yet nothing
    is raised. *)
Lemma exhaustion_iff_refuted :
  generate_boards create_master_pool 1 [Throw KeyboardInterrupt]
  = (inl KeyboardInterrupt, [])
  ∧ ¬ raises_iff_none_valid create_master_pool 1 [Throw KeyboardInterrupt]
  ∧ ¬ raises_iff_none_valid create_master_pool 1 round_robin_script.
Proof.
  split_and!.
  - by vm_compute.
  - intros [_ Hraise]. destruct Hraise as [g' Hrun].
    + assert (attempt_outcomes create_master_pool (Z.to_nat 1)
                [Throw KeyboardInterrupt] = [Raised KeyboardInterrupt])
        as -> by (vm_compute; reflexivity).
      repeat constructor. intros boards [=].
    + vm_compute in Hrun. done.
  - intros [_ Hraise]. destruct Hraise as [g' Hrun].
    + assert (∃ boards, attempt_outcomes create_master_pool (Z.to_nat 1)
                          round_robin_script = [Returned boards]
                        ∧ run_tests boards
                          = inl (AssertionError "TEST 3 FAILED: Some boards are identical"))
        as (boards & -> & Htests)
        by (eexists; split; [vm_compute; reflexivity|vm_compute; reflexivity]).
      repeat constructor. intros boards' [= <-]. unfold valid_board_set.
      by rewrite Htests.
    + vm_compute in Hrun. done.
Qed.

(** C4, amended: [generate_boards] ends in the [RuntimeError] whose message
    carries [max_attempts] exactly when every one of its [max_attempts]
    attempts was followed by the next, none having filled fifteen boards
    and none having let out an exception that is no instance of
    [Exception]; an instance of [Exception] that it lets out is that error,
    and the number read back from its message is [max_attempts]; it always
    ends, after at most fifteen shuffles per attempt; with
    [max_attempts = 0] it raises at once, the message carrying 0, without a
    single shuffle and with the generator untouched. *)
Theorem generate_boards_exhaustion {G : Type} {RS : RandomSource G}
    (master_pool : list Item) (max_attempts : Z) (g : G) :
  ((∃ g', generate_boards master_pool max_attempts g
          = (inl (RuntimeError (failure_message max_attempts)), g'))
   ↔ Forall retried (attempt_outcomes master_pool (Z.to_nat max_attempts) g))
  ∧ (∀ e g', generate_boards master_pool max_attempts g = (inl e, g') →
             is_Exception e = true →
             e = RuntimeError (failure_message max_attempts))
  ∧ carried_count (failure_message max_attempts) = Some max_attempts
  ∧ (shuffle_calls master_pool max_attempts g
     ≤ NUM_BOARDS * Z.to_nat max_attempts)%nat
  ∧ generate_boards master_pool 0 g
    = (inl (RuntimeError "Failed to generate valid boards after 0 attempts"), g)
  ∧ shuffle_calls master_pool 0 g = 0%nat.
Proof.
  split_and!.
  - apply attempts_raise_iff.
  - intros e g'. apply attempts_raised.
  - apply failure_message_carries.
  - apply (counted_attempts_le master_pool max_attempts _ (g, 0%nat)).
  - reflexivity.
  - reflexivity.
Qed.

Lemma generate_boards_exhaustion_witness :
  ∃ g', generate_boards create_master_pool 3 0%nat
        = (inl (RuntimeError (failure_message 3)), g').
Proof.
  apply (proj1 (generate_boards_exhaustion create_master_pool 3 0%nat)).
  vm_compute. repeat constructor.
Defined.

Lemma count_repeat (x k : Item) (n : nat) :
  count x (repeat k n) = if decide (k = x) then n else 0%nat.
Proof.
  induction n as [|n IH]; simpl; [by destruct (decide _)|].
  rewrite count_cons, IH. by destruct (decide (k = x)).
Qed.

Lemma count_elements_missing (c : Counter) (x : Item) :
  x ∉ c.*1 → count x (counter_elements c) = 0%nat.
Proof.
  induction c as [|[k v] c IH]; simpl; [done|].
  rewrite not_elem_of_cons. intros [Hne Hc].
  rewrite count_app, IH, count_repeat by done. by rewrite decide_False.
Qed.

(** [elements()] lays the counter out flat: every item as many times as
    its count. *)
Lemma count_elements (c : Counter) (x : Item) :
  NoDup c.*1 → counter_pos c →
  Z.of_nat (count x (counter_elements c)) = counter_get c x.
Proof.
  induction c as [|[k v] c IH]; simpl; [done|].
  rewrite NoDup_cons. intros [Hk Hnd] [Hv Hpos]%Forall_cons. simpl in Hv.
  rewrite count_app, count_repeat.
  destruct (decide (k = x)) as [->|Hne].
  - rewrite count_elements_missing by done. lia.
  - rewrite <- IH by done. lia.
Qed.

Lemma fold_fill_NoDup_keys (items : list Item) (s : fill_state) :
  NoDup (available s).*1 → NoDup (available (fold_left fill_step items s)).*1.
Proof.
  revert s. induction items as [|item items IH]; intros s Hnd; simpl; [done|].
  by apply IH, fill_step_NoDup_keys.
Qed.

Lemma build_boards_NoDup_keys {G : Type} {RS : RandomSource G}
    k avail boards (g : G) boards' avail' g' :
  NoDup avail.*1 →
  build_boards k avail boards g = (inr (boards', avail'), g') →
  NoDup avail'.*1.
Proof.
  revert avail boards g. induction k as [|k IH]; intros avail boards g Hnd; simpl.
  - by intros [= _ <- _].
  - destruct (shuffle g _) as [[e|items] g1]; [done|].
    pose proof (fold_fill_NoDup_keys items (fill_start avail) Hnd) as Hnd'.
    destruct (decide _).
    + by intros [= _ <- _].
    + by apply IH.
Qed.

(** C5: at every board of an attempt the counter holds the pool less the
    boards built so far; [elements()] lays it out flat, every item as many
    times as its count, and the tokens scanned are a rearrangement of that,
    from a shuffle of their own; the scan goes left to right and agrees with
    the scan of the specification, which accepts a token exactly when the
    board holds fewer than 16 items and not yet that item, and takes one
    from the item's count at each acceptance; a full board is added to the
    boards, a short one ends the loop. *)
Theorem generate_boards_greedy_scan {G : Type} {RS : RandomSource G}
    `{!ShufflePermutes G} (master_pool : list Item) (i : nat) (g g_i g' : G)
    (boards_i : list Board) (avail_i : Counter) (items : list Item) :
  build_boards i (counter_of master_pool) [] g = (inr (boards_i, avail_i), g_i) →
  length boards_i = i →
  shuffle g_i (counter_elements avail_i) = (inr items, g') →
  let remaining := λ x, Z.of_nat (count x master_pool)
                        - Z.of_nat (count x (concat boards_i)) in
  let scan := spec_scan items [] remaining in
  let s := fill_board items avail_i in
  (∀ x, counter_get avail_i x = remaining x)
  ∧ (∀ x, Z.of_nat (count x (counter_elements avail_i)) = remaining x)
  ∧ items ≡ₚ counter_elements avail_i
  ∧ board s = scan.1
  ∧ (∀ x, counter_get (available s) x = scan.2 x)
  ∧ build_boards (S i) (counter_of master_pool) [] g
    = if decide (length scan.1 = BOARD_SIZE)
      then (inr (boards_i ++ [scan.1], available s), g')
      else (inr (boards_i, available s), g').
Proof.
  intros Hb Hlen Hsh remaining scan s.
  pose proof (build_boards_NoDup_keys _ _ _ _ _ _ _ (counter_of_NoDup master_pool) Hb)
    as Hnd.
  assert (counter_elements (counter_of master_pool) ++ concat [] ≡ₚ master_pool)
    as Hstart by (simpl; by rewrite app_nil_r, counter_of_elements).
  destruct (build_boards_tokens master_pool _ _ _ _ _ _ _
              (counter_of_pos master_pool) Hstart Hb) as [Hpos Hperm];
    [by rewrite Hlen|].
  assert (∀ x, Z.of_nat (count x (counter_elements avail_i)) = remaining x) as Hflat.
  { intros x. unfold remaining.
    rewrite <- (count_Permutation x _ _ Hperm), count_app. lia. }
  assert (∀ x, counter_get avail_i x = remaining x) as Hget.
  { intros x. by rewrite <- Hflat, count_elements. }
  destruct (fold_fill_spec items (fill_start avail_i) (fill_start_ok avail_i) Hnd)
    as (Hboard & Havail & _).
  destruct (spec_scan_ext items [] (counter_get avail_i) remaining Hget)
    as [Hext1 Hext2].
  assert (board s = scan.1) as Hs by (unfold s, scan; by rewrite <- Hext1).
  split_and!; [done|done|by eapply shuffle_permutes|done| |].
  - intros x. unfold s, scan. rewrite <- Hext2. apply Havail.
  - rewrite <- Hs. replace (S i) with (i + 1)%nat by lia.
    rewrite (build_boards_split i 1 _ _ _ _ _ _ Hb) by (simpl; lia).
    destruct (decide (length (board s) = BOARD_SIZE)) as [Hfull|Hshort].
    + by rewrite (build_boards_next 0 _ _ _ _ _ Hsh Hfull).
    + by rewrite (build_boards_break 0 _ _ _ _ _ Hsh Hshort).
Qed.

Lemma generate_boards_greedy_scan_witness :
  ∃ boards_1 avail_1 g_1 items g',
    build_boards 1 (counter_of create_master_pool) [] staggered_script
    = (inr (boards_1, avail_1), g_1)
    ∧ shuffle g_1 (counter_elements avail_1) = (inr items, g')
    ∧ items ≡ₚ counter_elements avail_1
    ∧ board (fill_board items avail_1)
      = (spec_scan items []
           (λ x, Z.of_nat (count x create_master_pool)
                 - Z.of_nat (count x (concat boards_1)))).1.
Proof.
  assert (∃ boards_1 avail_1 g_1 items g',
    build_boards 1 (counter_of create_master_pool) [] staggered_script
    = (inr (boards_1, avail_1), g_1)
    ∧ length boards_1 = 1%nat
    ∧ shuffle g_1 (counter_elements avail_1) = (inr items, g'))
    as (boards_1 & avail_1 & g_1 & items & g' & Hb & Hlen & Hsh).
  { eexists _, _, _, _, _. split; [vm_compute; reflexivity|].
    split; [reflexivity|vm_compute; reflexivity]. }
  exists boards_1, avail_1, g_1, items, g'.
  destruct (generate_boards_greedy_scan create_master_pool 1 _ _ _ _ _ _ Hb Hlen Hsh)
    as (_ & _ & Hperm & Hboard & _).
  split_and!; [exact Hb|exact Hsh|exact Hperm|exact Hboard].
Defined.

(** C6: when a board of an attempt comes out of its single pass with fewer
    than 16 items, the attempt ends there, without another shuffle and
    without a board set, and the run goes on as a run with one attempt less
    on a fresh counter of the pool; a returned list always has fifteen
    boards of sixteen items. *)
Theorem generate_boards_all_or_nothing {G : Type} {RS : RandomSource G}
    (master_pool : list Item) (max_attempts : Z) :
  (∀ (n i : nat) (g g_i g' : G) boards_i avail_i items,
      (i < NUM_BOARDS)%nat →
      build_boards i (counter_of master_pool) [] g = (inr (boards_i, avail_i), g_i) →
      length boards_i = i →
      shuffle g_i (counter_elements avail_i) = (inr items, g') →
      (length (board (fill_board items avail_i)) < BOARD_SIZE)%nat →
      try_block (counter_of master_pool) g = (FellThrough, g')
      ∧ attempts master_pool max_attempts (S n) g
        = attempts master_pool max_attempts n g')
  ∧ (∀ (g g' : G) boards,
      generate_boards master_pool max_attempts g = (inr boards, g') →
      length boards = NUM_BOARDS
      ∧ Forall (λ b : Board, length b = BOARD_SIZE) boards).
Proof.
  split.
  - intros n i g g_i g' boards_i avail_i items Hi Hb Hlen Hsh Hshort.
    assert (try_block (counter_of master_pool) g = (FellThrough, g')) as Htry.
    { unfold try_block. rewrite (try_block_at i _ _ _ _ _ Hi Hb Hlen).
      rewrite (build_boards_break _ _ _ _ _ _ Hsh) by lia.
      rewrite decide_False; [done|]. lia. }
    split; [done|]. by eapply attempts_retry.
  - intros g g' boards [g0 Htry]%attempts_returned. split.
    + by apply try_block_returned in Htry as [? _].
    + apply try_block_boards_ok in Htry.
      eapply Forall_impl; [exact Htry|]. by intros b [? _].
Qed.

Lemma generate_boards_all_or_nothing_witness :
  try_block (counter_of create_master_pool) 0%nat = (FellThrough, 14%nat)
  ∧ attempts create_master_pool 2 (S 1) 0%nat
    = attempts create_master_pool 2 1 14%nat.
Proof.
  eapply (proj1 (generate_boards_all_or_nothing create_master_pool 2) 1%nat 13%nat).
  - unfold NUM_BOARDS. lia.
  - vm_compute. reflexivity.
  - reflexivity.
  - reflexivity.
  - vm_compute. lia.
Defined.



(** C10, as the claim has it, fails: a [KeyboardInterrupt] raised inside
    the first attempt is not caught by [except Exception]; it leaves
    [generate_boards] at once, the two attempts that remain are not run,
    and what comes out is not the [RuntimeError] of line 102. *)
Lemma interrupt_escapes_handler :
  try_block (counter_of create_master_pool) [Throw KeyboardInterrupt]
  = (Raised KeyboardInterrupt, [])
  ∧ generate_boards create_master_pool 3 [Throw KeyboardInterrupt]
    = (inl KeyboardInterrupt, [])
  ∧ KeyboardInterrupt ≠ RuntimeError (failure_message 3)
  ∧ attempts create_master_pool 3 3 [Throw KeyboardInterrupt]
    ≠ attempts create_master_pool 3 2 [].
Proof. split_and!; by vm_compute. Qed.

(** C10, amended: an exception raised inside the [try] block of an
    attempt, at any of its boards, ends the attempt; when it is an instance
    of [Exception] it is caught there and the run goes on as a run with one
    attempt less, otherwise ([KeyboardInterrupt], [SystemExit]) it leaves
    [generate_boards] at once; the only instance of [Exception] that
    [generate_boards] itself lets out is the [RuntimeError] after the loop,
    and only when every one of the [max_attempts] attempts was followed by
    the next. *)
Theorem generate_boards_swallows_exceptions {G : Type} {RS : RandomSource G}
    (master_pool : list Item) (max_attempts : Z) :
  (∀ (n i : nat) (g g_i g' : G) boards_i avail_i e,
      (i < NUM_BOARDS)%nat →
      build_boards i (counter_of master_pool) [] g = (inr (boards_i, avail_i), g_i) →
      length boards_i = i →
      shuffle g_i (counter_elements avail_i) = (inl e, g') →
      try_block (counter_of master_pool) g = (Raised e, g')
      ∧ (is_Exception e = true →
         attempts master_pool max_attempts (S n) g
         = attempts master_pool max_attempts n g')
      ∧ (is_Exception e = false →
         attempts master_pool max_attempts (S n) g = (inl e, g')))
  ∧ (∀ (g g' : G) e,
      generate_boards master_pool max_attempts g = (inl e, g') →
      is_Exception e = true →
      e = RuntimeError (failure_message max_attempts)
      ∧ Forall retried (attempt_outcomes master_pool (Z.to_nat max_attempts) g)).
Proof.
  split.
  - intros n i g g_i g' boards_i avail_i e Hi Hb Hlen Hsh.
    assert (try_block (counter_of master_pool) g = (Raised e, g')) as Htry.
    { unfold try_block. rewrite (try_block_at i _ _ _ _ _ Hi Hb Hlen).
      by rewrite (build_boards_raise _ _ _ _ _ _ Hsh). }
    split_and!; [done| |].
    + intros He. by eapply attempts_retry.
    + intros He. by apply attempts_escape.
  - intros g g' e Hrun He. pose proof (attempts_raised _ _ _ _ _ _ Hrun He) as ->.
    split; [done|]. apply (attempts_raise_iff master_pool max_attempts). eauto.
Qed.

Lemma generate_boards_swallows_exceptions_witness :
  try_block (counter_of create_master_pool)
    (Prefer (window 0) :: Throw MemoryError :: round_robin_script)
  = (Raised MemoryError, round_robin_script)
  ∧ attempts create_master_pool 2 (S 1)
      (Prefer (window 0) :: Throw MemoryError :: round_robin_script)
    = attempts create_master_pool 2 1 round_robin_script.
Proof.
  destruct (proj1 (generate_boards_swallows_exceptions create_master_pool 2)
              1%nat 1%nat
              (Prefer (window 0) :: Throw MemoryError :: round_robin_script)
              (Throw MemoryError :: round_robin_script) round_robin_script
              [window 0]
              (available (fill_board
                 (counter_elements (counter_of create_master_pool))
                 (counter_of create_master_pool)))
              MemoryError)
    as (Htry & Hcaught & _).
  - unfold NUM_BOARDS. lia.
  - vm_compute. reflexivity.
  - reflexivity.
  - reflexivity.
  - split; [exact Htry|]. apply Hcaught. reflexivity.
Defined.

(** * Further properties of the code

    What follows goes beyond the properties above: the validation of
    [run_tests], the shape of a filled board, the retry loop on other
    pools and budgets, and what [print_boards] and [export_to_json] write
    out. *)

(** ** The counter and the validation *)

Lemma counter_of_get_from (c : Counter) (l : list Item) (x : Item) :
  counter_get (fold_left (λ c x, counter_set c x (counter_get c x + 1)) l c) x
  = counter_get c x + Z.of_nat (count x l).
Proof.
  revert c. induction l as [|y l IH]; intros c; simpl.
  - unfold count. simpl. lia.
  - rewrite IH, counter_get_set, count_cons.
    destruct (decide (y = x)) as [->|]; lia.
Qed.

(** [Counter(l)[x]] is [l.count(x)]. *)
Lemma counter_of_get (l : list Item) (x : Item) :
  counter_get (counter_of l) x = Z.of_nat (count x l).
Proof. unfold counter_of. by rewrite counter_of_get_from. Qed.

Lemma filter_nil_Forall {A : Type} (P : A → Prop) `{!∀ x, Decision (P x)}
    (l : list A) :
  filter P l = [] ↔ Forall (λ x, ¬ P x) l.
Proof.
  induction l as [|x l IH]; [by split; [constructor|]|].
  rewrite filter_cons, Forall_cons. destruct (decide (P x)); [|tauto].
  split; [done|tauto].
Qed.

Lemma size_list_to_set_le (l : list Item) :
  (size (list_to_set l : gset Item) ≤ length l)%nat.
Proof.
  induction l as [|x l IH].
  - by rewrite list_to_set_nil, size_empty.
  - rewrite list_to_set_cons, size_union_alt, size_singleton.
    pose proof (subseteq_size (list_to_set l ∖ {[x]}) (list_to_set l : gset Item)
                  (subseteq_difference_l _ _ _ (reflexivity _))).
    cbn [length]. lia.
Qed.

(** [len(board) != len(set(board))] says that an item is there twice. *)
Lemma length_set_NoDup (l : list Item) :
  length l = size (list_to_set l : gset Item) ↔ NoDup l.
Proof.
  split; [|intros Hnd; by rewrite size_list_to_set].
  induction l as [|x l IH]; [constructor|].
  rewrite list_to_set_cons. cbn [length].
  intros Hlen. pose proof (size_list_to_set_le l) as Hle.
  destruct (decide (x ∈ l)) as [Hin|Hout].
  - rewrite (subseteq_union_1_L {[x]} (list_to_set l)) in Hlen; [lia|].
    by apply singleton_subseteq_l, elem_of_list_to_set.
  - rewrite size_union, size_singleton in Hlen
      by (by apply disjoint_singleton_l; rewrite elem_of_list_to_set).
    apply NoDup_cons. split; [done|]. apply IH. lia.
Qed.

Lemma length_remove_dups_le {A : Type} `{!EqDecision A} (l : list A) :
  (length (remove_dups l) ≤ length l)%nat.
Proof.
  induction l as [|x l IH]; simpl; [lia|].
  destruct (decide_rel _ _ _); simpl; lia.
Qed.

(** [len(xs) != len(set(xs))] says that two of the [xs] are equal. *)
Lemma length_remove_dups_NoDup {A : Type} `{!EqDecision A} (l : list A) :
  length l = length (remove_dups l) ↔ NoDup l.
Proof.
  induction l as [|x l IH]; simpl; [by split; [constructor|]|].
  pose proof (length_remove_dups_le l). rewrite NoDup_cons.
  destruct (decide_rel _ _ _) as [Hin|Hout]; simpl.
  - split; [lia|tauto].
  - rewrite <- IH. split; [intros [= ?]; done|intros [_ ->]; done].
Qed.

Lemma run_tests_errors_for (n : nat) (l : list Item) (boards : list Board) :
  filter (λ item, counter_get (counter_of (concat boards)) item ≠ Z.of_nat n) l = []
  ↔ Forall (λ item, count item (concat boards) = n) l.
Proof.
  rewrite filter_nil_Forall. apply Forall_proper; [|done].
  intros item. rewrite counter_of_get. split.
  - intros Hnn. destruct (decide (count item (concat boards) = n)); [done|].
    destruct Hnn. lia.
  - intros -> Hne. done.
Qed.

Lemma run_tests_errors (boards : list Board) :
  filter (λ item, counter_get (counter_of (concat boards)) item
                  ≠ Z.of_nat FIRST_24_FREQUENCY) (take 24 ITEMS)
  ++ filter (λ item, counter_get (counter_of (concat boards)) item
                     ≠ Z.of_nat LAST_12_FREQUENCY) (drop 24 ITEMS) = []
  ↔ frequencies_met boards.
Proof.
  unfold frequencies_met.
  rewrite <- !run_tests_errors_for. split.
  - by intros [-> ->]%app_nil.
  - intros [-> ->]. done.
Qed.

Lemma run_tests_duplicate_errors (boards : list Board) :
  filter (λ board : Board, length board ≠ size (list_to_set board : gset Item))
         boards = []
  ↔ no_duplicates boards.
Proof.
  unfold no_duplicates. rewrite filter_nil_Forall.
  apply Forall_proper; [|done]. intros board. rewrite <- length_set_NoDup.
  split; [|tauto]. intros Hnn.
  by destruct (decide (length board = size (list_to_set board : gset Item))).
Qed.

(** What [run_tests] answers, test by test. *)
Lemma run_tests_cases (boards : list Board) :
  run_tests boards
  = if decide (frequencies_met boards) then
      if decide (no_duplicates boards) then
        if decide (all_distinct boards) then inr ()
        else inl (AssertionError "TEST 3 FAILED: Some boards are identical")
      else inl (AssertionError "TEST 2 FAILED: Some boards contain duplicates")
    else inl (AssertionError "TEST 1 FAILED: Frequency requirements not met").
Proof.
  unfold run_tests.
  destruct (decide (frequencies_met boards)) as [Hf|Hf].
  - rewrite decide_False by (intros Hne; apply Hne; by apply run_tests_errors).
    destruct (decide (no_duplicates boards)) as [Hd|Hd].
    + rewrite decide_False
        by (intros Hne; apply Hne; by apply run_tests_duplicate_errors).
      destruct (decide (all_distinct boards)) as [Ha|Ha].
      * rewrite decide_False; [done|].
        intros Hne. apply Hne. by apply length_remove_dups_NoDup.
      * rewrite decide_True; [done|].
        intros He. apply Ha. by apply length_remove_dups_NoDup.
    + rewrite decide_True; [done|].
      intros He. apply Hd. by apply run_tests_duplicate_errors.
  - rewrite decide_True; [done|]. intros He. apply Hf. by apply run_tests_errors.
Qed.

Lemma concat_outer_Permutation (boards boards' : list Board) :
  boards ≡ₚ boards' → concat boards ≡ₚ concat boards'.
Proof.
  induction 1 as [|b l l' _ IH|b b' l|l1 l2 l3 _ IH1 _ IH2]; simpl.
  - done.
  - by rewrite IH.
  - rewrite !(assoc (++)). f_equiv. apply Permutation_app_comm.
  - by rewrite IH1.
Qed.

Lemma concat_inner_Permutation (boards boards' : list Board) :
  Forall2 (≡ₚ) boards boards' → concat boards ≡ₚ concat boards'.
Proof. induction 1 as [|b b' l l' Hb _ IH]; simpl; [done|]. by rewrite Hb, IH. Qed.

Lemma frequencies_met_Permutation (boards boards' : list Board) :
  concat boards ≡ₚ concat boards' →
  frequencies_met boards ↔ frequencies_met boards'.
Proof.
  intros Hperm. unfold frequencies_met.
  assert (∀ item, count item (concat boards) = count item (concat boards')) as Hc
    by (intros item; by apply count_Permutation).
  split; intros [H7 H6]; split;
    (eapply Forall_impl; [eassumption|]); intros item; simpl;
    by rewrite Hc.
Qed.

Lemma no_duplicates_inner (boards boards' : list Board) :
  Forall2 (≡ₚ) boards boards' → no_duplicates boards ↔ no_duplicates boards'.
Proof.
  unfold no_duplicates. induction 1 as [|b b' l l' Hb _ IH]; [done|].
  rewrite !Forall_cons, IH. by rewrite Hb.
Qed.

Lemma board_sets_inner (boards boards' : list Board) :
  Forall2 (≡ₚ) boards boards' →
  ((λ board : Board, list_to_set board : gset Item) <$> boards)
  = ((λ board : Board, list_to_set board : gset Item) <$> boards').
Proof.
  induction 1 as [|b b' l l' Hb _ IH]; [done|].
  rewrite !fmap_cons, IH. f_equal. by apply list_to_set_perm_L.
Qed.

(** X1: [run_tests] passes exactly on the board lists that meet the target
    count of every catalogue item, have no item twice on a board and no two
    boards with the same set of items. *)
Theorem run_tests_passes_iff (boards : list Board) :
  run_tests boards = inr ()
  ↔ frequencies_met boards ∧ no_duplicates boards ∧ all_distinct boards.
Proof.
  rewrite run_tests_cases.
  destruct (decide (frequencies_met boards)); [|split; [done|tauto]].
  destruct (decide (no_duplicates boards)); [|split; [done|tauto]].
  destruct (decide (all_distinct boards)); [|split; [done|tauto]].
  done.
Qed.

(** X2: [run_tests] stops at the first test that fails: wrong counts give
    the error of test 1 whatever else is wrong, a repeated item on a board
    the error of test 2 when the counts are right, two boards with the same
    items the error of test 3 when the first two tests pass. *)
Theorem run_tests_first_failure (boards : list Board) :
  (¬ frequencies_met boards →
   run_tests boards
   = inl (AssertionError "TEST 1 FAILED: Frequency requirements not met"))
  ∧ (frequencies_met boards → ¬ no_duplicates boards →
     run_tests boards
     = inl (AssertionError "TEST 2 FAILED: Some boards contain duplicates"))
  ∧ (frequencies_met boards → no_duplicates boards → ¬ all_distinct boards →
     run_tests boards
     = inl (AssertionError "TEST 3 FAILED: Some boards are identical")).
Proof.
  rewrite run_tests_cases. split_and!.
  - intros Hf. repeat case_decide; done.
  - intros Hf Hd. repeat case_decide; done.
  - intros Hf Hd Ha. repeat case_decide; done.
Qed.

Lemma run_tests_first_failure_witness :
  run_tests [ITEMS; ITEMS]
  = inl (AssertionError "TEST 1 FAILED: Frequency requirements not met").
Proof.
  apply (proj1 (run_tests_first_failure [ITEMS; ITEMS])).
  intros [H7 _]. apply Forall_inv in H7. by vm_compute in H7.
Defined.

(** X3: the answer of [run_tests] does not depend on the order of the
    boards in the list nor on the order of the items on a board. *)
Theorem run_tests_order_blind (boards boards' : list Board) :
  boards ≡ₚ boards' ∨ Forall2 (≡ₚ) boards boards' →
  run_tests boards = run_tests boards'.
Proof.
  intros Hrel. rewrite !run_tests_cases.
  assert (frequencies_met boards ↔ frequencies_met boards') as Hf.
  { apply frequencies_met_Permutation. destruct Hrel.
    - by apply concat_outer_Permutation.
    - by apply concat_inner_Permutation. }
  assert (no_duplicates boards ↔ no_duplicates boards') as Hd.
  { destruct Hrel as [Hp|H2].
    - unfold no_duplicates. by rewrite Hp.
    - by apply no_duplicates_inner. }
  assert (all_distinct boards ↔ all_distinct boards') as Ha.
  { unfold all_distinct. destruct Hrel as [Hp|H2].
    - by rewrite Hp.
    - by rewrite (board_sets_inner boards boards'). }
  repeat case_decide; tauto || done.
Qed.

Lemma run_tests_order_blind_witness :
  run_tests [reverse ITEMS; ITEMS] = run_tests [ITEMS; ITEMS].
Proof.
  apply run_tests_order_blind. right.
  constructor; [apply reverse_Permutation|]. constructor; [done|constructor].
Defined.

(** ** The filling of a board *)

Lemma first_occurrences_snoc (l : list Item) (x : Item) :
  first_occurrences (l ++ [x])
  = if decide (x ∈ l) then first_occurrences l else first_occurrences l ++ [x].
Proof.
  unfold first_occurrences. rewrite reverse_snoc. cbn [remove_dups].
  destruct (decide_rel _ x (reverse l)) as [Hin|Hout];
    rewrite elem_of_reverse in *.
  - by rewrite decide_True.
  - by rewrite decide_False, reverse_cons.
Qed.

Lemma elem_of_first_occurrences (l : list Item) (x : Item) :
  x ∈ first_occurrences l ↔ x ∈ l.
Proof.
  unfold first_occurrences.
  by rewrite elem_of_reverse, elem_of_remove_dups, elem_of_reverse.
Qed.

Lemma length_first_occurrences (l : list Item) :
  length (first_occurrences l) = size (list_to_set l : gset Item).
Proof.
  unfold first_occurrences. rewrite length_reverse.
  rewrite <- (size_list_to_set (C := gset Item)) by apply NoDup_remove_dups.
  f_equal. apply set_eq. intros x.
  by rewrite !elem_of_list_to_set, elem_of_remove_dups, elem_of_reverse.
Qed.

Lemma fold_left_snoc {A B : Type} (f : A → B → A) (l : list B) (x : B) (a : A) :
  fold_left f (l ++ [x]) a = f (fold_left f l a) x.
Proof. by rewrite fold_left_app. Qed.

Lemma fill_board_board (available_items : list Item) (avail : Counter) :
  board (fill_board available_items avail)
  = take BOARD_SIZE (first_occurrences available_items).
Proof.
  unfold fill_board.
  induction available_items as [|item items IH] using rev_ind; [done|].
  rewrite fold_left_snoc, first_occurrences_snoc.
  pose proof (fold_fill_ok items (fill_start avail) (fill_start_ok avail)) as Hok.
  set (s := fold_left fill_step items (fill_start avail)) in *.
  pose proof (length_take (first_occurrences items) BOARD_SIZE) as Hlen.
  rewrite <- IH in Hlen.
  destruct (decide (item ∈ items)) as [Hin|Hout].
  - rewrite <- IH. rewrite fill_step_reject; [done|]. intros [Hfresh Hroom].
    apply Hfresh. rewrite (ok_items s Hok), IH.
    rewrite take_ge by lia. by apply elem_of_first_occurrences.
  - destruct (decide (length (board s) < BOARD_SIZE)%nat) as [Hroom|Hfull].
    + rewrite fill_step_accept; simpl.
      * rewrite IH, !take_ge; [done|rewrite length_app; simpl; lia|lia].
      * split; [|done]. rewrite (ok_items s Hok), IH.
        intros Hb%subseteq_take. apply Hout. by apply elem_of_first_occurrences.
    + rewrite fill_step_reject by tauto.
      rewrite IH. rewrite take_app_le by lia. done.
Qed.

Lemma fill_board_length (available_items : list Item) (avail : Counter) :
  length (board (fill_board available_items avail))
  = (BOARD_SIZE `min` size (list_to_set available_items : gset Item))%nat.
Proof. by rewrite fill_board_board, length_take, length_first_occurrences. Qed.

(** X4: the board that the scan builds is made of the first sixteen
    different items of the shuffled sequence, in the order in which they
    first occur; so it has sixteen items exactly when the sequence holds at
    least sixteen different items. *)
Theorem fill_board_first_occurrences (available_items : list Item) (avail : Counter) :
  board (fill_board available_items avail)
  = take BOARD_SIZE (first_occurrences available_items)
  ∧ length (board (fill_board available_items avail))
    = (BOARD_SIZE `min` size (list_to_set available_items : gset Item))%nat.
Proof. split; [apply fill_board_board|apply fill_board_length]. Qed.

Lemma on_board_snoc (b : Board) (item x : Item) :
  item ∉ b →
  (if decide (x ∈ b ++ [item]) then 1 else 0)
  = (if decide (x ∈ b) then 1 else 0) + (if decide (item = x) then 1 else 0).
Proof.
  intros Hfresh.
  destruct (decide (x ∈ b)) as [Hb|Hb], (decide (x ∈ b ++ [item])) as [Hs|Hs],
    (decide (item = x)) as [Heq|Hne]; try lia; exfalso.
  - by subst.
  - apply Hs, elem_of_app. by left.
  - apply Hs, elem_of_app. by left.
  - apply elem_of_app in Hs as [?|?%list_elem_of_singleton]; done.
  - apply Hs, elem_of_app. right. by apply list_elem_of_singleton.
Qed.

Lemma fold_fill_account (avail0 : Counter) (items : list Item) (s : fill_state) :
  board_ok s → NoDup (available s).*1 →
  (∀ x, counter_get (available s) x
        = counter_get avail0 x - (if decide (x ∈ board s) then 1 else 0)) →
  ∀ x, counter_get (available (fold_left fill_step items s)) x
       = counter_get avail0 x
         - (if decide (x ∈ board (fold_left fill_step items s)) then 1 else 0).
Proof.
  revert s. induction items as [|item items IH]; intros s Hok Hnd Hacc; simpl; [done|].
  apply IH; [by apply fill_step_ok|by apply fill_step_NoDup_keys|].
  intros x. unfold fill_step. destruct (decide _) as [[Hfresh Hroom]|]; [|done].
  simpl. rewrite take_one_get, Hacc by done.
  rewrite (ok_items s Hok) in Hfresh.
  rewrite on_board_snoc by done. lia.
Qed.

(** X5: filling a board takes exactly one token of every item that ends
    up on the board and leaves the count of every other item as it was,
    whether or not a key was deleted on the way. *)
Theorem fill_board_account (available_items : list Item) (avail : Counter) (x : Item) :
  NoDup avail.*1 →
  counter_get (available (fill_board available_items avail)) x
  = counter_get avail x
    - (if decide (x ∈ board (fill_board available_items avail)) then 1 else 0).
Proof.
  intros Hnd. apply fold_fill_account; [apply fill_start_ok|done|].
  intros y. simpl. destruct (decide (y ∈ [])) as [Hin|_]; [|lia].
  by apply elem_of_nil in Hin.
Qed.

Lemma fill_board_account_witness :
  counter_get (available (fill_board ["a"; "b"; "a"] [("a", 2); ("b", 1)])) "b"
  = counter_get [("a", 2); ("b", 1)] "b"
    - (if decide ("b" ∈ board (fill_board ["a"; "b"; "a"] [("a", 2); ("b", 1)]))
       then 1 else 0).
Proof.
  apply (fill_board_account ["a"; "b"; "a"] [("a", 2); ("b", 1)] "b").
  apply (bool_decide_unpack _). by vm_compute.
Defined.

(** ** The retry loop *)

Section MoreRetryFacts.

Context {G : Type} {RS : RandomSource G}.

Implicit Types (pool : list Item) (g : G).

Lemma attempts_returned_account `{!ShufflePermutes G} pool max n g boards g' :
  attempts pool max n g = (inr boards, g') →
  length boards = NUM_BOARDS ∧ boards_ok boards
  ∧ ∃ avail', counter_elements avail' ++ concat boards ≡ₚ pool.
Proof.
  intros [g0 Htry]%attempts_returned.
  destruct (try_block_tokens _ _ _ _ (counter_of_pos pool) Htry) as [avail' Hperm].
  pose proof (try_block_boards_ok _ _ _ _ Htry) as Hok.
  apply try_block_returned in Htry as [Hlen _].
  split_and!; [done..|]. exists avail'. by rewrite Hperm, counter_of_elements.
Qed.

Lemma attempts_more pool max max' n k g boards g' :
  attempts pool max n g = (inr boards, g') →
  attempts pool max' (n + k) g = (inr boards, g').
Proof.
  revert g. induction n as [|n IH]; intros g; simpl; [done|].
  destruct (try_block _ g) as [[boards0| |e] g1]; [done|by apply IH|].
  destruct (is_Exception e); [by apply IH|done].
Qed.

Lemma attempts_first_success pool max n g boards g' :
  attempts pool max n g = (inr boards, g')
  ↔ ∃ i, attempt_trace pool n g !! i = Some (Returned boards, g')
         ∧ Forall (λ rg, retried rg.1) (take i (attempt_trace pool n g)).
Proof.
  revert g. induction n as [|n IH]; intros g; simpl.
  - split; [done|by intros [i [? _]]].
  - destruct (try_block _ g) as [r g1]. destruct r as [boards0| |e].
    + split.
      * intros [= -> ->]. exists 0%nat. split; [done|]. apply Forall_nil_2.
      * intros [[|i] [Hi Hbefore]]; simpl in *.
        -- by injection Hi as -> ->.
        -- apply Forall_cons in Hbefore as [Hr _]. by destruct Hr.
    + rewrite IH. split.
      * intros (i & Hi & Hbefore). exists (S i). split; [done|].
        simpl. apply Forall_cons. split; [done|done].
      * intros [[|i] [Hi Hbefore]]; simpl in *; [done|].
        apply Forall_cons in Hbefore as [_ Hbefore]. eauto.
    + destruct (is_Exception e) eqn:He.
      * rewrite IH. split.
        -- intros (i & Hi & Hbefore). exists (S i). split; [done|].
           simpl. apply Forall_cons. split; [done|done].
        -- intros [[|i] [Hi Hbefore]]; simpl in *; [done|].
           apply Forall_cons in Hbefore as [_ Hbefore]. eauto.
      * split; [done|]. intros [[|i] [Hi Hbefore]]; simpl in *; [done|].
        apply Forall_cons in Hbefore as [Hr _]. simpl in Hr. congruence.
Qed.

(** With fewer than sixteen different items in the pool the first board of
    an attempt comes out short, or its shuffle raises: the attempt makes
    that one shuffle and produces nothing. *)
Lemma try_block_few_items `{!ShufflePermutes G} pool g :
  (size (list_to_set pool : gset Item) < BOARD_SIZE)%nat →
  ∃ r, try_block (counter_of pool) g
       = (r, (shuffle g (counter_elements (counter_of pool))).2)
       ∧ ¬ produced r.
Proof.
  intros Hfew.
  destruct (shuffle g (counter_elements (counter_of pool))) as [[e|items] g1] eqn:Hsh.
  - exists (Raised e). split; [|simpl; tauto].
    unfold try_block. change NUM_BOARDS with (S 14) at 1.
    by rewrite (build_boards_raise 14 _ _ _ _ _ Hsh).
  - exists FellThrough. split; [|simpl; tauto].
    assert (length (board (fill_board items (counter_of pool))) ≠ BOARD_SIZE)
      as Hshort.
    { rewrite fill_board_length.
      apply shuffle_permutes in Hsh. rewrite counter_of_elements in Hsh.
      rewrite (list_to_set_perm_L (C := gset Item) _ _ Hsh). lia. }
    unfold try_block. change NUM_BOARDS with (S 14) at 1.
    rewrite (build_boards_break 14 _ _ _ _ _ Hsh Hshort).
    by rewrite decide_False.
Qed.

End MoreRetryFacts.

Lemma counted_attempts_few_items {G : Type} {RS : RandomSource G}
    `{!ShufflePermutes G} (pool : list Item) (max : Z) (n : nat) (gn : G * nat) :
  (size (list_to_set pool : gset Item) < BOARD_SIZE)%nat →
  ((attempts pool max n gn).1 = inl (RuntimeError (failure_message max))
   ∧ (attempts pool max n gn).2.2 = (gn.2 + n)%nat)
  ∨ (∃ e, (attempts pool max n gn).1 = inl e ∧ is_Exception e = false
          ∧ (gn.2 < (attempts pool max n gn).2.2 ≤ gn.2 + n)%nat).
Proof.
  intros Hfew. revert gn. induction n as [|n IH]; intros gn; cbn [attempts].
  - left. simpl. split; [done|lia].
  - destruct (try_block_few_items pool gn Hfew) as (r & Htry & Hnone).
    rewrite Htry.
    pose proof (counted_shuffle_calls gn (counter_elements (counter_of pool))) as Hn.
    set (gn1 := (shuffle gn (counter_elements (counter_of pool))).2) in *.
    destruct r as [boards| |e]; [by destruct Hnone| |].
    + destruct (IH gn1) as [[Hfst Hcalls]|(e & Hfst & He & Hcalls)]; [left|right].
      * split; [done|]. rewrite Hcalls, Hn. lia.
      * exists e. split_and!; [done..|lia|lia].
    + destruct (is_Exception e) eqn:He.
      * destruct (IH gn1) as [[Hfst Hcalls]|(e' & Hfst & He' & Hcalls)]; [left|right].
        -- split; [done|]. rewrite Hcalls, Hn. lia.
        -- exists e'. split_and!; [done..|lia|lia].
      * right. exists e. simpl. split_and!; [done..|lia|lia].
Qed.

(** X6: whatever the pool, the 240 tokens on a returned board list are
    tokens of the pool, no token used twice: the boards and the tokens left
    unused are together a rearrangement of the pool, item by item. *)
Theorem generate_boards_draws_from_pool {G : Type} {RS : RandomSource G}
    `{!ShufflePermutes G} (master_pool : list Item) (max_attempts : Z) (g : G)
    (boards : list Board) (g' : G) :
  generate_boards master_pool max_attempts g = (inr boards, g') →
  ∃ unused : list Item,
    unused ++ concat boards ≡ₚ master_pool
    ∧ length (concat boards) = 240%nat
    ∧ ∀ item, (count item (concat boards) + count item unused)%nat
              = count item master_pool.
Proof.
  intros (Hlen & Hok & avail' & Hperm)%attempts_returned_account.
  exists (counter_elements avail'). split_and!; [done| |].
  - by rewrite (boards_ok_concat_length _ Hok), Hlen.
  - intros item. rewrite <- (count_Permutation item _ _ Hperm), count_app. lia.
Qed.

Lemma generate_boards_draws_from_pool_witness :
  ∃ boards g' unused,
    generate_boards (create_master_pool ++ ["37 COMODÍN"]) 1 staggered_script
    = (inr boards, g')
    ∧ unused ++ concat boards ≡ₚ create_master_pool ++ ["37 COMODÍN"]
    ∧ length (concat boards) = 240%nat
    ∧ ∀ item, (count item (concat boards) + count item unused)%nat
              = count item (create_master_pool ++ ["37 COMODÍN"]).
Proof.
  assert (∃ boards g',
    generate_boards (create_master_pool ++ ["37 COMODÍN"]) 1 staggered_script
    = (inr boards, g'))
    as (boards & g' & Hrun) by (vm_compute; do 2 eexists; reflexivity).
  destruct (generate_boards_draws_from_pool _ _ _ _ _ Hrun) as (unused & Hacc).
  exists boards, g', unused. split; [exact Hrun|exact Hacc].
Defined.

(** X7: a pool with fewer than sixteen different items never yields a
    board set: every attempt ends at its first board, after one shuffle, so
    that [generate_boards] makes [max_attempts] shuffles and raises the
    [RuntimeError]; the one other end is that of a shuffle raising an
    exception that is no instance of [Exception], which leaves
    [generate_boards] at that shuffle, one of the first [max_attempts].
    The empty pool is the extreme case. *)
Theorem few_distinct_items_exhausts {G : Type} {RS : RandomSource G}
    `{!ShufflePermutes G} (master_pool : list Item) (max_attempts : Z) (g : G) :
  (size (list_to_set master_pool : gset Item) < BOARD_SIZE)%nat →
  ((generate_boards master_pool max_attempts g).1
   = inl (RuntimeError (failure_message max_attempts))
   ∧ shuffle_calls master_pool max_attempts g = Z.to_nat max_attempts)
  ∨ (∃ e, (generate_boards master_pool max_attempts g).1 = inl e
          ∧ is_Exception e = false
          ∧ (0 < shuffle_calls master_pool max_attempts g
             ≤ Z.to_nat max_attempts)%nat).
Proof.
  intros Hfew. unfold shuffle_calls, generate_boards.
  destruct (attempts_alike (λ (g : G) gn, gn.1 = g) counted_alike master_pool
              max_attempts (Z.to_nat max_attempts) g (g, 0%nat) eq_refl)
    as [-> _].
  apply (counted_attempts_few_items master_pool max_attempts _ (g, 0%nat) Hfew).
Qed.

Lemma few_distinct_items_exhausts_witness :
  ((generate_boards (take 100 create_master_pool) 5 0%nat).1
   = inl (RuntimeError (failure_message 5))
   ∧ shuffle_calls (take 100 create_master_pool) 5 0%nat = Z.to_nat 5)
  ∨ (∃ e, (generate_boards (take 100 create_master_pool) 5 0%nat).1 = inl e
          ∧ is_Exception e = false
          ∧ (0 < shuffle_calls (take 100 create_master_pool) 5 0%nat
             ≤ Z.to_nat 5)%nat).
Proof.
  apply (few_distinct_items_exhausts (take 100 create_master_pool) 5 0%nat).
  vm_compute. lia.
Defined.

Example few_distinct_items_on_counting_source :
  (generate_boards (take 100 create_master_pool) 5 0%nat).1
  = inl (RuntimeError (failure_message 5))
  ∧ shuffle_calls (take 100 create_master_pool) 5 0%nat = 5%nat.
Proof. by vm_compute. Qed.

Example few_distinct_items_interrupted :
  generate_boards (take 100 create_master_pool) 5
    [Prefer []; Throw KeyboardInterrupt; Prefer []]
  = (inl KeyboardInterrupt, [Prefer []])
  ∧ shuffle_calls (take 100 create_master_pool) 5
      [Prefer []; Throw KeyboardInterrupt; Prefer []] = 2%nat.
Proof. by vm_compute. Qed.

(** X8: a larger attempt budget never changes a success: if
    [generate_boards] returns a board list with some [max_attempts], it
    returns the same list, leaving the generator in the same state, with
    any larger one. *)
Theorem generate_boards_budget_monotone {G : Type} {RS : RandomSource G}
    (master_pool : list Item) (max_attempts max_attempts' : Z) (g : G)
    (boards : list Board) (g' : G) :
  generate_boards master_pool max_attempts g = (inr boards, g') →
  max_attempts ≤ max_attempts' →
  generate_boards master_pool max_attempts' g = (inr boards, g').
Proof.
  unfold generate_boards. intros Hrun Hle.
  replace (Z.to_nat max_attempts')
    with (Z.to_nat max_attempts + (Z.to_nat max_attempts' - Z.to_nat max_attempts))%nat
    by lia.
  by eapply attempts_more.
Qed.

Lemma generate_boards_budget_monotone_witness :
  ∃ boards g',
    generate_boards create_master_pool 1 staggered_script = (inr boards, g')
    ∧ generate_boards create_master_pool 1000 staggered_script = (inr boards, g').
Proof.
  assert (∃ boards g',
    generate_boards create_master_pool 1 staggered_script = (inr boards, g'))
    as (boards & g' & Hrun) by (vm_compute; do 2 eexists; reflexivity).
  exists boards, g'. split; [exact Hrun|].
  apply (generate_boards_budget_monotone create_master_pool 1 1000
           staggered_script boards g' Hrun).
  lia.
Defined.

(** X9: [generate_boards] returns a board list exactly when it is the one
    produced by the first attempt that produces any, that attempt being
    among the first [max_attempts] and every attempt before it having been
    followed by the next; the generator is then left as that attempt left
    it: no later attempt is run. *)
Theorem generate_boards_first_success {G : Type} {RS : RandomSource G}
    (master_pool : list Item) (max_attempts : Z) (g : G)
    (boards : list Board) (g' : G) :
  generate_boards master_pool max_attempts g = (inr boards, g')
  ↔ ∃ i, attempt_trace master_pool (Z.to_nat max_attempts) g !! i
         = Some (Returned boards, g')
         ∧ Forall (λ rg, retried rg.1)
                  (take i (attempt_trace master_pool (Z.to_nat max_attempts) g)).
Proof. apply attempts_first_success. Qed.

Example generate_boards_stops_at_success :
  shuffle_calls create_master_pool 1000 staggered_script = 15%nat
  ∧ (generate_boards create_master_pool 1000 staggered_script).2 = [].
Proof. by vm_compute. Qed.

Lemma reference_run_passes_two_tests {G : Type} {RS : RandomSource G}
    `{!ShufflePermutes G} (max : Z) (g g' : G) (boards : list Board) :
  generate_boards create_master_pool max g = (inr boards, g') →
  frequencies_met boards ∧ no_duplicates boards.
Proof.
  intros (Hlen & Hok & avail' & Hperm)%attempts_returned_account.
  assert (counter_elements avail' = []) as Hnil.
  { apply nil_length_inv. apply Permutation_length in Hperm.
    rewrite length_app, (boards_ok_concat_length _ Hok), Hlen in Hperm.
    rewrite master_pool_length in Hperm.
    unfold NUM_BOARDS, BOARD_SIZE in Hperm. lia. }
  rewrite Hnil in Hperm. simpl in Hperm. split; [split|].
  - eapply Forall_impl; [exact master_pool_first|]. intros item Hc. simpl.
    by rewrite (count_Permutation item _ _ Hperm).
  - eapply Forall_impl; [exact master_pool_last|]. intros item Hc. simpl.
    by rewrite (count_Permutation item _ _ Hperm).
  - eapply Forall_impl; [exact Hok|]. by intros b [_ ?].
Qed.

(** X10: [main] can end in five ways only: it passes its tests; or it
    raises the error of test 3 because two boards hold the same items; or
    it raises the [RuntimeError] of [generate_boards] after 1000 attempts;
    or an exception that is no instance of [Exception] leaves
    [generate_boards]; or the export raises while writing the file, after
    the boards were generated and printed.  The assertion on the size of
    the pool and the first two tests never fail.  (Writing to standard
    output is taken to succeed, here as in every definition.) *)
Theorem main_outcomes {G : Type} {RS : RandomSource G} {FS : FileSystem G}
    `{!ShufflePermutes G} (g : G) :
  (main g).1 = inr ()
  ∨ (main g).1 = inl (AssertionError "TEST 3 FAILED: Some boards are identical")
  ∨ (main g).1
    = inl (RuntimeError "Failed to generate valid boards after 1000 attempts")
  ∨ (∃ e, (main g).1 = inl e ∧ is_Exception e = false)
  ∨ (∃ boards g1 e g2,
       generate_boards create_master_pool 1000 g = (inr boards, g1)
       ∧ write_export boards "loteria_boards.json" g1 = (inl e, g2)
       ∧ (main g).1 = inl e).
Proof.
  unfold main, main_with.
  rewrite decide_False by (rewrite master_pool_length; by intros []).
  destruct (generate_boards create_master_pool 1000 g) as [[e|boards] g1] eqn:Hrun.
  - destruct (is_Exception e) eqn:He.
    + apply attempts_raised in Hrun as ->; [|done]. do 2 right. left. reflexivity.
    + do 3 right. left. by exists e.
  - destruct (reference_run_passes_two_tests _ _ _ _ Hrun) as [Hf Hd].
    destruct (write_export boards "loteria_boards.json" g1) as [[e|[]] g2] eqn:Hw.
    + do 4 right. by exists boards, g1, e, g2.
    + simpl. rewrite run_tests_cases.
      rewrite (decide_True (P := frequencies_met boards)) by done.
      rewrite (decide_True (P := no_duplicates boards)) by done.
      destruct (decide (all_distinct boards)); auto.
Qed.

Lemma main_outcomes_witness :
  (main (ReadOnly staggered_script)).1 = inr ()
  ∨ (main (ReadOnly staggered_script)).1
    = inl (AssertionError "TEST 3 FAILED: Some boards are identical")
  ∨ (main (ReadOnly staggered_script)).1
    = inl (RuntimeError "Failed to generate valid boards after 1000 attempts")
  ∨ (∃ e, (main (ReadOnly staggered_script)).1 = inl e ∧ is_Exception e = false)
  ∨ (∃ boards g1 e g2,
       generate_boards create_master_pool 1000 (ReadOnly staggered_script)
       = (inr boards, g1)
       ∧ write_export boards "loteria_boards.json" g1 = (inl e, g2)
       ∧ (main (ReadOnly staggered_script)).1 = inl e).
Proof. exact (main_outcomes (ReadOnly staggered_script)). Defined.

Example main_on_read_only_files :
  (main (ReadOnly staggered_script)).1
  = inl (OSError "[Errno 30] Read-only file system: loteria_boards.json").
Proof. by vm_compute. Qed.

(** ** The boards as they are written out *)

Lemma slices_take (board : Board) :
  slice board 0 4 ++ slice board 4 8 ++ slice board 8 12 ++ slice board 12 16
  = take 16 board.
Proof.
  unfold slice. cbn [Nat.sub]. rewrite drop_0.
  rewrite (assoc (++)), (take_take_drop board 4 4). cbn [Nat.add].
  rewrite (assoc (++)), (take_take_drop board 8 4). cbn [Nat.add].
  by rewrite (take_take_drop board 12 4).
Qed.

Lemma slice_rows_full (board : Board) :
  length board = 16%nat →
  Forall (λ row : list Item, length row = 4%nat)
    [slice board 0 4; slice board 4 8; slice board 8 12; slice board 12 16].
Proof.
  intros Hlen. unfold slice.
  repeat (apply Forall_cons; split;
          [rewrite length_take, length_drop, Hlen; reflexivity|]).
  apply Forall_nil_2.
Qed.

Lemma filter_item_lines (l : list Item) :
  filter item_line ((λ item, "  " +:+ item) <$> l) = (λ item, "  " +:+ item) <$> l.
Proof.
  induction l as [|item l IH]; [done|].
  rewrite fmap_cons, filter_cons_True, IH; [done|].
  unfold item_line. simpl. by destruct item.
Qed.

Lemma print_row_item_lines (board : Board) (row : nat) :
  filter item_line (print_row board row)
  = (λ item, "  " +:+ item) <$> slice board (row * 4) (row * 4 + 4).
Proof.
  unfold print_row. rewrite filter_app, filter_item_lines.
  destruct (decide (row < 3)%nat); by rewrite app_nil_r.
Qed.

Lemma print_board_item_lines (i : nat) (board : Board) :
  filter item_line (print_board i board)
  = (λ item, "  " +:+ item) <$> take BOARD_SIZE board.
Proof.
  unfold print_board. rewrite filter_app.
  assert (filter item_line [newline +:+ rule; "BOARD " +:+ str (Z.of_nat i); rule] = [])
    as -> by done.
  cbn [seq flat_map app]. rewrite app_nil_r, !filter_app, !print_row_item_lines.
  rewrite <- !fmap_app. f_equal. apply slices_take.
Qed.

Lemma print_boards_item_lines_from (num : nat → nat) (boards : list Board) :
  filter item_line (concat (imap (λ k board, print_board (num k) board) boards))
  = (λ item, "  " +:+ item) <$> concat (take BOARD_SIZE <$> boards).
Proof.
  revert num. induction boards as [|board boards IH]; intros num; [done|].
  rewrite imap_cons. cbn [concat fmap list_fmap].
  rewrite filter_app, fmap_app, print_board_item_lines. f_equal.
  apply (IH (num ∘ S)).
Qed.

(** X11: among the texts that [print_boards] prints, those that begin
    with two blanks are, in order, the first sixteen items of each board;
    what a board holds beyond its sixteenth item is not printed, and a
    shorter board is printed as far as it goes. *)
Theorem print_boards_item_lines (boards : list Board) :
  filter item_line (print_boards boards)
  = (λ item, "  " +:+ item) <$> concat (take BOARD_SIZE <$> boards).
Proof. apply (print_boards_item_lines_from S). Qed.

(** X12: the document of [export_to_json] has one entry for every board
    of the list, in the order of the list and numbered from 1, and
    [total_boards] is the number of boards; the grid of an entry always has
    four rows and flattens to the first sixteen items of its board, so that
    it holds the whole board, four items a row, exactly when the board has
    sixteen items; the field [items] holds the board whatever its length,
    and [items_per_board] is 16 whatever the boards. *)
Theorem export_to_json_grid (boards : list Board) :
  Json.total_boards (export_to_json boards) = length boards
  ∧ length (Json.boards (export_to_json boards)) = length boards
  ∧ Json.items_per_board (export_to_json boards) = 16%nat
  ∧ ∀ k board, boards !! k = Some board →
      ∃ bd, Json.boards (export_to_json boards) !! k = Some bd
        ∧ Json.board_number bd = S k
        ∧ Json.items bd = board
        ∧ length (Json.grid bd) = 4%nat
        ∧ concat (Json.grid bd) = take 16 board
        ∧ (length board = 16%nat →
           concat (Json.grid bd) = board
           ∧ Forall (λ row : list Item, length row = 4%nat) (Json.grid bd)).
Proof.
  split_and!.
  - done.
  - unfold export_to_json. cbn [Json.boards]. by rewrite length_imap.
  - done.
  - intros k board Hk. eexists. split.
    { unfold export_to_json. cbn [Json.boards].
      by rewrite list_lookup_imap, Hk. }
    cbn [Json.grid Json.items Json.board_number concat].
    split_and!; [done..| |].
    + rewrite app_nil_r. apply slices_take.
    + intros Hlen. split; [|by apply slice_rows_full].
      rewrite app_nil_r, slices_take. by rewrite take_ge by lia.
Qed.

Lemma export_to_json_grid_witness :
  ∃ bd, Json.boards (export_to_json [ITEMS]) !! 0%nat = Some bd
    ∧ Json.board_number bd = 1%nat
    ∧ Json.items bd = ITEMS
    ∧ concat (Json.grid bd) = take 16 ITEMS.
Proof.
  destruct (proj2 (proj2 (proj2 (export_to_json_grid [ITEMS]))) 0%nat ITEMS eq_refl)
    as (bd & Hbd & Hnum & Hitems & _ & Hgrid & _).
  exists bd. split_and!; [exact Hbd|exact Hnum|exact Hitems|exact Hgrid].
Defined.

(** X13: what [main] writes out of a board list returned by
    [generate_boards] is the whole of it: [print_boards] prints every item
    of every board, in order, and the document of [export_to_json] has
    fifteen entries and says so, the entry of each board holding that board,
    as many items as the field [items_per_board] says, in a grid of four
    rows of four that flattens to the board. *)
Theorem returned_boards_written_out_whole {G : Type} {RS : RandomSource G}
    (master_pool : list Item) (max_attempts : Z) (g : G)
    (boards : list Board) (g' : G) :
  generate_boards master_pool max_attempts g = (inr boards, g') →
  filter item_line (print_boards boards)
  = (λ item, "  " +:+ item) <$> concat boards
  ∧ Json.total_boards (export_to_json boards) = 15%nat
  ∧ length (Json.boards (export_to_json boards)) = 15%nat
  ∧ ∀ k board, boards !! k = Some board →
      ∃ bd, Json.boards (export_to_json boards) !! k = Some bd
        ∧ Json.board_number bd = S k
        ∧ Json.items bd = board
        ∧ length (Json.items bd) = Json.items_per_board (export_to_json boards)
        ∧ concat (Json.grid bd) = board
        ∧ Forall (λ row : list Item, length row = 4%nat) (Json.grid bd).
Proof.
  intros [g0 Htry]%attempts_returned.
  pose proof (try_block_boards_ok _ _ _ _ Htry) as Hok.
  apply try_block_returned in Htry as [Hlen _].
  split_and!.
  - rewrite print_boards_item_lines. do 2 f_equal.
    clear Hlen. induction Hok as [|b l [Hb _] _ IH]; [done|].
    rewrite fmap_cons, IH, take_ge; [done|]. rewrite Hb. done.
  - done.
  - unfold export_to_json. cbn [Json.boards]. by rewrite length_imap.
  - intros k board Hk. eexists. split.
    { unfold export_to_json. cbn [Json.boards].
      by rewrite list_lookup_imap, Hk. }
    cbn [Json.grid Json.items Json.board_number Json.items_per_board
         export_to_json concat].
    apply (Forall_lookup_1 _ _ _ _ Hok) in Hk as [Hb _].
    split_and!; [done..| |by apply slice_rows_full].
    rewrite app_nil_r, slices_take. by rewrite take_ge by (rewrite Hb; done).
Qed.

Lemma returned_boards_written_out_whole_witness :
  ∃ boards g',
    generate_boards create_master_pool 1 staggered_script = (inr boards, g')
    ∧ filter item_line (print_boards boards)
      = (λ item, "  " +:+ item) <$> concat boards
    ∧ Json.total_boards (export_to_json boards) = 15%nat
    ∧ length (Json.boards (export_to_json boards)) = 15%nat.
Proof.
  assert (∃ boards g',
    generate_boards create_master_pool 1 staggered_script = (inr boards, g'))
    as (boards & g' & Hrun) by (vm_compute; do 2 eexists; reflexivity).
  exists boards, g'. split; [exact Hrun|].
  destruct (returned_boards_written_out_whole _ _ _ _ _ Hrun) as (Hp & Ht & Hl & _).
  split_and!; [exact Hp|exact Ht|exact Hl].
Defined.
